(** * go-chatroom: a WebSocket broadcast relay

    A shallow embedding of [chatroom_server.go] and of the client file of
    package [chatroom], with the properties of the connection pool, of the
    broadcast loop, of the session handler and of the client wrappers.

    Layout:
    - Go slices over a heap of backing arrays (the pool is a
      [[]*websocket.Conn] that [removeConn] splices in place);
    - the transport endpoints ([websocket.Message.Send], [Receive], [Close]);
    - the server: [execute], [removeConn], [Broadcast], [readMessage],
      [registerServer], run one goroutine at a time;
    - the same server code as an interleaving machine, one program counter
      per goroutine;
    - the query decoding of [net/url] used by the handshake;
    - the client: [Register], [Send], [Read], [keepWebsocketAlive]. *)

From Stdlib Require Import ZArith String Ascii List Lia.
From stdpp Require Import base list strings gmap.

Local Open Scope nat_scope.

(** ** Connections *)

(** A [*websocket.Conn] is a pointer: connections are compared by identity
    ([origElem == elem]).  Address [0] is the nil pointer. *)
Definition Conn := nat.
Definition nil_conn : Conn := 0.

(** ** Go slices *)

(** A slice header: backing array, offset of the first element in it,
    length and capacity.  The heap maps an array address to its cells. *)
Record Slice := mkSlice { ptr : nat; off : nat; len : nat; cap : nat }.

Abbreviation Heap := (list (list Conn)).

Definition nil_slice : Slice := mkSlice 0 0 0 0.

Definition cells (h : Heap) (p : nat) : list Conn := default [] (h !! p).

(** The elements a slice denotes. *)
Definition view (h : Heap) (s : Slice) : list Conn :=
  take (len s) (drop (off s) (cells h (ptr s))).

(** [s[i]], for [i < len s]. *)
Definition index (h : Heap) (s : Slice) (i : nat) : Conn :=
  default nil_conn (cells h (ptr s) !! (off s + i)).

(** [s[:i]] and [s[i:]]. *)
Definition slice_to (s : Slice) (i : nat) : Slice :=
  mkSlice (ptr s) (off s) i (cap s).
Definition slice_from (s : Slice) (i : nat) : Slice :=
  mkSlice (ptr s) (off s + i) (len s - i) (cap s - i).

(** [make([]*websocket.Conn, n)]: a fresh array of [n] nil pointers. *)
Definition make (n : nat) (h : Heap) : Heap * Slice :=
  (h ++ [replicate n nil_conn], mkSlice (length h) 0 n n).

(** Every cell a slice may reach is allocated. *)
Definition wf_slice (h : Heap) (s : Slice) : Prop :=
  off s + cap s <= length (cells h (ptr s)) /\ len s <= cap s.

(** ** Transport endpoints *)

(** Go [error] values are modelled by their text. *)
Definition error := string.

Definition errClosed : error := "use of closed network connection".
Definition errEOF : error := "EOF".

(** The state of one WebSocket connection as its owner sees it.  A transport
    may be severed from some instant on: writes at or after it fail. *)
Record Peer := mkPeer {
  remoteAddr : string;           (* ws.Request().RemoteAddr *)
  rawQuery : string;             (* ws.Request().URL.RawQuery *)
  inbox : list string;           (* frames still to be received, in order *)
  outbox : list string;          (* frames written so far, in order *)
  fault : option (Z * error);    (* severed at this instant, with this error *)
  closed : bool                  (* Close was called on this side *)
}.

(** What the program does to the outside, in the order it does it.  The
    [log] calls of the source write to the process log only and are not
    recorded. *)
Inductive event :=
  | EvSend (c : Conn) (m : string)
  | EvSendErr (c : Conn) (e : error)
  | EvRecv (c : Conn) (m : string)
  | EvRecvErr (c : Conn) (e : error)
  | EvClose (c : Conn)
  | EvRegister (c : Conn)
  | EvUnregister (c : Conn)
  | EvSleep (d : Z)
  | EvGo (c : Conn).

Record Net := mkNet {
  peers : gmap Conn Peer;
  trace : list event;
  now : Z
}.

Definition with_inbox (p : Peer) (i : list string) : Peer :=
  mkPeer (remoteAddr p) (rawQuery p) i (outbox p) (fault p) (closed p).
Definition with_outbox (p : Peer) (o : list string) : Peer :=
  mkPeer (remoteAddr p) (rawQuery p) (inbox p) o (fault p) (closed p).
Definition with_closed (p : Peer) (b : bool) : Peer :=
  mkPeer (remoteAddr p) (rawQuery p) (inbox p) (outbox p) (fault p) b.

Definition emit (e : event) (n : Net) : Net :=
  mkNet (peers n) (trace n ++ [e]) (now n).

Definition set_peer (c : Conn) (p : Peer) (n : Net) : Net :=
  mkNet (<[c := p]> (peers n)) (trace n) (now n).

(** The error a write gets at instant [t], if any. *)
Definition peer_write_error (t : Z) (p : Peer) : option error :=
  if closed p then Some errClosed
  else match fault p with
       | Some (t0, e) => if (t0 <=? t)%Z then Some e else None
       | None => None
       end.

Definition write_error (n : Net) (c : Conn) : option error :=
  match peers n !! c with
  | None => Some errClosed
  | Some p => peer_write_error (now n) p
  end.

(** [websocket.Message.Send(ws, message)] *)
Definition ws_Send (ws : Conn) (message : string) (n : Net)
  : Net * option error :=
  match peers n !! ws with
  | None => (emit (EvSendErr ws errClosed) n, Some errClosed)
  | Some p =>
      match peer_write_error (now n) p with
      | Some e => (emit (EvSendErr ws e) n, Some e)
      | None =>
          (emit (EvSend ws message)
             (set_peer ws (with_outbox p (outbox p ++ [message])) n),
           None)
      end
  end.

(** [websocket.Message.Receive(ws, &message)]: the next frame, or an error
    once the peer has nothing more to deliver or the connection is closed. *)
Definition ws_Receive (ws : Conn) (n : Net) : Net * (string + error) :=
  match peers n !! ws with
  | None => (emit (EvRecvErr ws errClosed) n, inr errClosed)
  | Some p =>
      if closed p then (emit (EvRecvErr ws errClosed) n, inr errClosed)
      else match inbox p with
           | [] => (emit (EvRecvErr ws errEOF) n, inr errEOF)
           | m :: rest =>
               (emit (EvRecv ws m) (set_peer ws (with_inbox p rest) n), inl m)
           end
  end.

(** [ws.Close()] *)
Definition ws_Close (ws : Conn) (n : Net) : Net :=
  emit (EvClose ws)
    match peers n !! ws with
    | None => n
    | Some p => set_peer ws (with_closed p true) n
    end.

(** [time.Sleep(d)] on the virtual clock. *)
Definition time_Sleep (d : Z) (n : Net) : Net :=
  mkNet (peers n) (trace n ++ [EvSleep d]) (now n + d)%Z.

(** Observations on a connection. *)
Definition received (n : Net) (c : Conn) : list string :=
  from_option outbox [] (peers n !! c).
Definition pending (n : Net) (c : Conn) : list string :=
  from_option inbox [] (peers n !! c).
Definition is_closed (n : Net) (c : Conn) : bool :=
  from_option closed true (peers n !! c).

(** [ws.Request().RemoteAddr] and [ws.Request().URL.RawQuery] *)
Definition RemoteAddr (n : Net) (ws : Conn) : string :=
  from_option remoteAddr EmptyString (peers n !! ws).
Definition RequestQuery (n : Net) (ws : Conn) : string :=
  from_option rawQuery EmptyString (peers n !! ws).

(** ** Query decoding ([net/url])

    The handler reads the password with [ws.Request().URL.Query().Get("pwd")].
    These functions follow the Go standard library: [strings.Cut],
    [url.QueryUnescape], [url.ParseQuery] (whose error [Query] drops, and
    which since Go 1.17 rejects a pair that holds a ";") and [Values.Get]. *)
Module url.

Local Open Scope string_scope.

Definition Values := gmap string (list string).

(** [strings.Cut(s, sep)] for a one-byte separator. *)
Fixpoint Cut (sep : ascii) (s : string) : string * string * bool :=
  match s with
  | EmptyString => (EmptyString, EmptyString, false)
  | String c s' =>
      if Ascii.eqb c sep then (EmptyString, s', true)
      else let '(before, after, found) := Cut sep s' in
           (String c before, after, found)
  end.

Fixpoint Contains (sep : ascii) (s : string) : bool :=
  match s with
  | EmptyString => false
  | String c s' => Ascii.eqb c sep || Contains sep s'
  end.

Definition between (lo hi c : ascii) : bool :=
  (nat_of_ascii lo <=? nat_of_ascii c)%nat
  && (nat_of_ascii c <=? nat_of_ascii hi)%nat.

Definition ishex (c : ascii) : bool :=
  between "0" "9" c || between "a" "f" c || between "A" "F" c.

Definition unhex (c : ascii) : nat :=
  if between "0" "9" c then nat_of_ascii c - nat_of_ascii "0"
  else if between "a" "f" c then nat_of_ascii c - nat_of_ascii "a" + 10
  else if between "A" "F" c then nat_of_ascii c - nat_of_ascii "A" + 10
  else 0.

(** [QueryUnescape]: "%XY" is the byte [XY], "+" is a space; a "%" not
    followed by two hex digits is an error. *)
Fixpoint QueryUnescape (s : string) : option string :=
  match s with
  | EmptyString => Some EmptyString
  | String c rest =>
      if Ascii.eqb c "%" then
        match rest with
        | String a (String b rest') =>
            if ishex a && ishex b then
              String (ascii_of_nat (unhex a * 16 + unhex b))
                <$> QueryUnescape rest'
            else None
        | _ => None
        end
      else if Ascii.eqb c "+" then String " " <$> QueryUnescape rest
      else String c <$> QueryUnescape rest
  end.

(** The loop of [parseQuery]: one "&"-separated pair per iteration; a pair
    with a ";" or with a malformed escape is skipped. *)
Fixpoint parseQuery (fuel : nat) (m : Values) (query : string) : Values :=
  match fuel with
  | 0 => m
  | S fuel' =>
      if String.eqb query "" then m
      else
        let '(key, query', _) := Cut "&" query in
        if Contains ";" key then parseQuery fuel' m query'
        else if String.eqb key "" then parseQuery fuel' m query'
        else
          let '(key, value, _) := Cut "=" key in
          match QueryUnescape key with
          | None => parseQuery fuel' m query'
          | Some key =>
              match QueryUnescape value with
              | None => parseQuery fuel' m query'
              | Some value =>
                  parseQuery fuel'
                    (<[key := (default [] (m !! key) ++ [value])%list]> m) query'
              end
          end
  end.

(** The bytes that need no escaping in a query component: letters, digits
    and "-", "_", ".", "~". *)
Definition unreserved (c : ascii) : bool :=
  between "a" "z" c || between "A" "Z" c || between "0" "9" c
  || Ascii.eqb c "-" || Ascii.eqb c "_" || Ascii.eqb c "." || Ascii.eqb c "~".

Fixpoint all_unreserved (s : string) : bool :=
  match s with
  | EmptyString => true
  | String c s' => unreserved c && all_unreserved s'
  end.

(** [URL.Query()]: every iteration consumes at least one byte of a
    non-empty query, so its length bounds the number of iterations. *)
Definition Query (RawQuery : string) : Values :=
  parseQuery (String.length RawQuery) ∅ RawQuery.

(** [Values.Get(key)] *)
Definition Get (v : Values) (key : string) : string :=
  match default [] (v !! key) with
  | [] => ""
  | x :: _ => x
  end.

(** A URL as the client holds it, with the fields the client sets. *)
Record URL := mkURL {
  Scheme : string; Host : string; Path : string; RawQuery : string
}.

(** [URL.String()]: the query is appended as it is. *)
Definition URL_String (u : URL) : string :=
  Scheme u +:+ "://" +:+ Host u +:+ Path u
  +:+ (if String.eqb (RawQuery u) "" then "" else "?" +:+ RawQuery u).

(** The raw query the handler sees when a client dials [rawurl]: the
    dialer and the HTTP server both cut the location at its first "?". *)
Definition request_RawQuery (rawurl : string) : string :=
  let '(_, q, _) := Cut "?" rawurl in q.

End url.

Section Pool.

(** The capacity the runtime gives a reallocated array is the needed length
    plus some slack it chooses from the old capacity and the needed length. *)
Variable slack : nat -> nat -> nat.

(** [append(s, elems...)]: in place when the capacity suffices, else into a
    fresh array.  [elems] are read before anything is written (the runtime
    moves overlapping memory correctly). *)
Definition append (h : Heap) (s : Slice) (elems : list Conn) : Heap * Slice :=
  let n := len s + length elems in
  if decide (n <= cap s) then
    (<[ptr s := list_inserts (off s + len s) elems (cells h (ptr s))]> h,
     mkSlice (ptr s) (off s) n (cap s))
  else
    let newcap := n + slack (cap s) n in
    (h ++ [view h s ++ elems ++ replicate (newcap - n) nil_conn],
     mkSlice (length h) 0 n newcap).

(** ** [removeConn] *)

(** The [range] loop of [removeConn] from index [i], with [n] iterations
    left.  [newSlice] is the local variable the function preallocates; it is
    only ever overwritten. *)
Fixpoint removeConn_range (h : Heap) (slice : Slice) (elem : Conn)
    (newSlice : Slice) (i n : nat) : Heap * Slice :=
  match n with
  | 0 => (h, slice)
  | S n' =>
      let origElem := index h slice i in
      if decide (origElem = elem) then
        let '(h', newSlice') :=
          append h (slice_to slice i) (view h (slice_from slice (i + 1))) in
        (h', newSlice')
      else removeConn_range h slice elem newSlice (S i) n'
  end.

Definition removeConn (h : Heap) (slice : Slice) (elem : Conn) : Heap * Slice :=
  let newSliceLen := if decide (len slice <= 0) then 0 else len slice - 1 in
  let '(h1, newSlice) := make newSliceLen h in
  removeConn_range h1 slice elem newSlice 0 (len slice).

(** ** The server

    The functions of [chatroom_server.go], run one goroutine at a time: a
    send on one of the pool's channels is followed at once by the case of
    [execute] that receives it.  The interleavings of several goroutines are
    those of the machine further down. *)

(** [ChatServer]: its configuration.  The pool it points to is part of the
    [World] below, since every goroutine of the server shares it. *)
Record ChatServer := mkChatServer {
  listenAddr : string;
  password : string
}.

(** The memory the server's goroutines share and the network they act on:
    [connections] is the field [serverConnPool.connections]. *)
Record World := mkWorld {
  heap : Heap;
  connections : Slice;
  net : Net
}.

Definition with_net (w : World) (n : Net) : World :=
  mkWorld (heap w) (connections w) n.

(** [NewChatServer]: the pool starts with a nil slice. *)
Definition NewChatServer (listenAddr password : string) : ChatServer :=
  mkChatServer listenAddr password.
Definition new_world (n : Net) : World := mkWorld [] nil_slice n.

(** The registry as a list: what the pool's slice denotes. *)
Definition members (w : World) : list Conn := view (heap w) (connections w).

(** The [range] loop of [GetPoolAddr] from index [i], with [n] iterations
    left: [slice] is the local result, which starts nil. *)
Fixpoint GetPoolAddr_range (conns : Slice) (i n : nat) (slice : list string)
    (w : World) : list string :=
  match n with
  | 0 => slice
  | S n' =>
      let ws := index (heap w) conns i in
      GetPoolAddr_range conns (S i) n' (slice ++ [RemoteAddr (net w) ws]) w
  end.

(** [GetPoolAddr] *)
Definition GetPoolAddr (w : World) : list string :=
  let conns := connections w in
  GetPoolAddr_range conns 0 (len conns) [] w.

(** What arrives on the pool's two channels. *)
Inductive request :=
  | ReqRegister (r : Conn)
  | ReqUnregister (r : Conn).

(** One round of the [select] in [execute], for the request received. *)
Definition execute_case (q : request) (w : World) : World :=
  match q with
  | ReqRegister r =>
      let '(h', s') := append (heap w) (connections w) [r] in
      mkWorld h' s' (emit (EvRegister r) (net w))
  | ReqUnregister r =>
      let '(h', s') := removeConn (heap w) (connections w) r in
      mkWorld h' s' (emit (EvUnregister r) (net w))
  end.

(** [execute] on the requests it receives, in order. *)
Definition execute (qs : list request) (w : World) : World :=
  foldl (fun w q => execute_case q w) w qs.

(** One iteration of the [range] loop of [Broadcast] at index [i] of the
    slice header [conns] the loop was entered with: the element is read from
    the heap now.  Returns the member whose write failed, if it did. *)
Definition Broadcast_iter (message : string) (conns : Slice) (i : nat)
    (w : World) : World * option (Conn * error) :=
  let ws := index (heap w) conns i in
  match ws_Send ws message (net w) with
  | (n', Some err) => (with_net w n', Some (ws, err))
  | (n', None) => (with_net w n', None)
  end.

(** The loop of [Broadcast] from index [i], with [n] iterations left.  A
    send on the [unregister] channel is a rendezvous with [execute], which
    then runs its case. *)
Fixpoint Broadcast_range (message : string) (conns : Slice) (i n : nat)
    (w : World) : World * option error :=
  match n with
  | 0 => (w, None)
  | S n' =>
      match Broadcast_iter message conns i w with
      | (w', Some (ws, err)) => (execute_case (ReqUnregister ws) w', Some err)
      | (w', None) => Broadcast_range message conns (S i) n' w'
      end
  end.

Definition Broadcast (message : string) (w : World) : World * option error :=
  let conns := connections w in
  Broadcast_range message conns 0 (len conns) w.

(** The body of the loop of [readMessage]: the world after it, and whether
    the loop goes on ([false] is the [return] after a receive error). *)
Definition readMessage_body (ws : Conn) (w : World) : World * bool :=
  match ws_Receive ws (net w) with
  | (n', inr err) => (execute_case (ReqUnregister ws) (with_net w n'), false)
  | (n', inl message) => ((Broadcast message (with_net w n')).1, true)
  end.

(** [readMessage]: [None] when [fuel] iterations did not reach a receive
    error. *)
Fixpoint readMessage (fuel : nat) (ws : Conn) (w : World) : option World :=
  match fuel with
  | 0 => None
  | S fuel' =>
      match readMessage_body ws w with
      | (w', true) => readMessage fuel' ws w'
      | (w', false) => Some w'
      end
  end.

(** The password a connection supplied in its handshake. *)
Definition supplied_password (n : Net) (ws : Conn) : string :=
  url.Get (url.Query (from_option rawQuery EmptyString (peers n !! ws))) "pwd".

(** The test of [registerServer]. *)
Definition admits (s : ChatServer) (pwd : string) : bool :=
  String.eqb (password s) "" || String.eqb (password s) pwd.

(** [registerServer]; the deferred [ws.Close()] runs on both paths. *)
Definition registerServer (s : ChatServer) (fuel : nat) (ws : Conn)
    (w : World) : option World :=
  let password' := supplied_password (net w) ws in
  if admits s password' then
    match readMessage fuel ws (execute_case (ReqRegister ws) w) with
    | Some w' => Some (with_net w' (ws_Close ws (net w')))
    | None => None
    end
  else Some (with_net w (ws_Close ws (net w))).

(** ** The server's goroutines, interleaved

    The same code with one program counter per goroutine: the owner of the
    pool runs [execute]; each accepted connection runs [registerServer].  A
    send on an unbuffered channel completes only when [execute] is at its
    [select]; the case then runs as a later step of the owner. *)

Inductive OwnerPC :=
  | OwSelect                       (* blocked in [select] *)
  | OwCase (q : request).          (* received [q], case body not yet run *)

Inductive SessionPC :=
  | PcCheck                                  (* password test *)
  | PcRegister                               (* [register <- ws] *)
  | PcReceive                                (* [Message.Receive] *)
  | PcBroadcast (message : string)           (* entering [Broadcast] *)
  | PcRange (message : string) (conns : Slice) (i : nat)
                                             (* in the [range] loop *)
  | PcEvict (c : Conn)                       (* [unregister <- ws] in [Broadcast] *)
  | PcUnregister                             (* [unregister <- ws] in [readMessage] *)
  | PcClose                                  (* deferred [ws.Close()] *)
  | PcDone.                                  (* handler returned *)

Record Machine := mkMachine {
  world : World;
  owner : OwnerPC;
  sessions : gmap Conn SessionPC
}.

Inductive actor :=
  | Owner
  | Session (ws : Conn).

Definition goto (ws : Conn) (pc : SessionPC) (w : World) (m : Machine)
  : Machine :=
  mkMachine w (owner m) (<[ws := pc]> (sessions m)).

(** A channel send by session [ws]: possible only while the owner waits. *)
Definition offer (ws : Conn) (q : request) (next : SessionPC) (m : Machine)
  : option Machine :=
  match owner m with
  | OwSelect => Some (mkMachine (world m) (OwCase q) (<[ws := next]> (sessions m)))
  | OwCase _ => None
  end.

(** One step of one goroutine; [None] when it is blocked or has returned. *)
Definition step (s : ChatServer) (a : actor) (m : Machine) : option Machine :=
  let w := world m in
  match a with
  | Owner =>
      match owner m with
      | OwSelect => None
      | OwCase q => Some (mkMachine (execute_case q w) OwSelect (sessions m))
      end
  | Session ws =>
      match sessions m !! ws with
      | None => None
      | Some PcCheck =>
          if admits s (supplied_password (net w) ws)
          then Some (goto ws PcRegister w m)
          else Some (goto ws PcClose w m)
      | Some PcRegister => offer ws (ReqRegister ws) PcReceive m
      | Some PcReceive =>
          match ws_Receive ws (net w) with
          | (n', inr err) => Some (goto ws PcUnregister (with_net w n') m)
          | (n', inl message) =>
              Some (goto ws (PcBroadcast message) (with_net w n') m)
          end
      | Some (PcBroadcast message) =>
          Some (goto ws (PcRange message (connections w) 0) w m)
      | Some (PcRange message conns i) =>
          if decide (i < len conns) then
            match Broadcast_iter message conns i w with
            | (w', Some (c, err)) => Some (goto ws (PcEvict c) w' m)
            | (w', None) => Some (goto ws (PcRange message conns (S i)) w' m)
            end
          else Some (goto ws PcReceive w m)
      | Some (PcEvict c) => offer ws (ReqUnregister c) PcReceive m
      | Some PcUnregister => offer ws (ReqUnregister ws) PcClose m
      | Some PcClose =>
          Some (goto ws PcDone (with_net w (ws_Close ws (net w))) m)
      | Some PcDone => None
      end
  end.

(** A schedule names the goroutine that moves at each step. *)
Fixpoint run (s : ChatServer) (sched : list actor) (m : Machine)
  : option Machine :=
  match sched with
  | [] => Some m
  | a :: sched' =>
      match step s a m with
      | Some m' => run s sched' m'
      | None => None
      end
  end.

(** Whether the next step of [a] reads or writes the pool's membership (the
    field [connections] or the array behind it). *)
Definition touches_pool (a : actor) (m : Machine) : bool :=
  match a with
  | Owner =>
      match owner m with
      | OwCase _ => true
      | OwSelect => false
      end
  | Session ws =>
      match sessions m !! ws with
      | Some (PcBroadcast _) => true
      | Some (PcRange _ conns i) => bool_decide (i < len conns)
      | _ => false
      end
  end.

End Pool.

(** ** The client *)

Record ServerConfig := mkServerConfig {
  origin : string;
  protocol : string;
  url_ : url.URL
}.

Record ChatClient := mkChatClient {
  ClientID : string;
  conn : Conn;                   (* nil until [Register] *)
  chatServer : ServerConfig
}.

Definition NewChatClient (clientID : string) (sc : ServerConfig) : ChatClient :=
  mkChatClient clientID nil_conn sc.

Definition errNotConnected : error :=
  "Websocket connection do not establish, please register first.".
Definition errSendPrefix : string := "Can not send message to server: ".
Definition errReceivePrefix : string := "Can not receive message from server: ".
Definition heartbeat : string := "heartbeat".

(** [time.Second], in nanoseconds. *)
Definition Second : Z := 1000000000.

(** The URL [Register] dials: the password is concatenated as it is. *)
Definition Register_url (c : ChatClient) (password : string) : url.URL :=
  let u := url_ (chatServer c) in
  url.mkURL (url.Scheme u) (url.Host u) (url.Path u) ("pwd=" +:+ password).

Section Client.

(** [websocket.Dial(url, protocol, origin)]: the outcome is the
    environment's. *)
Variable Dial : string -> string -> string -> Net -> Net * (Conn + error).

(** [Register]: [None] is [log.Fatal], the process exits.  The keepalive
    goroutine is started, not run, here. *)
Definition Register (c : ChatClient) (password : string) (n : Net)
  : option (ChatClient * Net) :=
  let u := Register_url c password in
  let sc := mkServerConfig (origin (chatServer c)) (protocol (chatServer c)) u in
  match Dial (url.URL_String u) (protocol sc) (origin sc) n with
  | (n', inr err) => None
  | (n', inl ws) => Some (mkChatClient (ClientID c) ws sc, emit (EvGo ws) n')
  end.

End Client.

(** [Send] *)
Definition Send (c : ChatClient) (message : string) (n : Net)
  : Net * option error :=
  if decide (conn c = nil_conn) then (n, Some errNotConnected)
  else
    match ws_Send (conn c) message n with
    | (n', Some err) => (n', Some (errSendPrefix +:+ err))
    | (n', None) => (n', None)
    end.

(** [Read] *)
Definition Read (c : ChatClient) (n : Net) : Net * (string * option error) :=
  if decide (conn c = nil_conn) then (n, (EmptyString, Some errNotConnected))
  else
    match ws_Receive (conn c) n with
    | (n', inr err) => (n', (EmptyString, Some (errReceivePrefix +:+ err)))
    | (n', inl message) => (n', (message, None))
    end.

(** The password the server's handler reads when client [c] registers with
    [password]: the URL is built and printed by the client, cut at its query
    by the handshake, and decoded by [Query]. *)
Definition handshake_password (c : ChatClient) (password : string) : string :=
  url.Get
    (url.Query (url.request_RawQuery (url.URL_String (Register_url c password))))
    "pwd".

(** How far a goroutine got within its fuel. *)
Inductive outcome :=
  | Returned (n : Net)
  | Running (n : Net).

(** The loop of [keepWebsocketAlive]. *)
Fixpoint keepWebsocketAlive_loop (fuel : nat) (ws : Conn) (n : Net) : outcome :=
  match fuel with
  | 0 => Running n
  | S fuel' =>
      let n1 := time_Sleep (60 * Second) n in
      match ws_Send ws heartbeat n1 with
      | (n2, Some err) => Returned n2
      | (n2, None) => keepWebsocketAlive_loop fuel' ws n2
      end
  end.

(** [keepWebsocketAlive]: the deferred [ws.Close()] runs when the loop
    returns. *)
Definition keepWebsocketAlive (fuel : nat) (ws : Conn) (n : Net) : outcome :=
  match keepWebsocketAlive_loop fuel ws n with
  | Returned n' => Returned (ws_Close ws n')
  | Running n' => Running n'
  end.

(** ** Notions the properties are stated with *)

(** The pool's slice is backed by allocated cells. *)
Definition wf_world (w : World) : Prop := wf_slice (heap w) (connections w).

(** The list a removal is expected to produce: the first occurrence of [x]
    dropped. *)
Fixpoint remove_first (x : Conn) (l : list Conn) : list Conn :=
  match l with
  | [] => []
  | y :: l' => if decide (y = x) then l' else y :: remove_first x l'
  end.

(** The network after [message] was written to [ws]. *)
Definition deliver (message : string) (n : Net) (ws : Conn) : Net :=
  emit (EvSend ws message)
    match peers n !! ws with
    | Some p => set_peer ws (with_outbox p (outbox p ++ [message])) n
    | None => n
    end.

(** The network after the next frame of [ws] was received. *)
Definition consume (n : Net) (ws : Conn) : Net :=
  match peers n !! ws with
  | Some p =>
      match inbox p with
      | m :: rest => emit (EvRecv ws m) (set_peer ws (with_inbox p rest) n)
      | [] => n
      end
  | None => n
  end.

(** [n'] comes from [n] by writes and channel traffic only: nothing was
    received, nothing closed, and the trace grew at its end. *)
Definition writes_only (n n' : Net) : Prop :=
  (forall c, pending n' c = pending n c)
  /\ (forall c, is_closed n' c = is_closed n c)
  /\ exists evs, trace n' = trace n ++ evs.

(** Writing [message] to [targets] in order, up to the first failure. *)
Fixpoint send_all (message : string) (targets : list Conn) (n : Net)
  : Net * option (Conn * error) :=
  match targets with
  | [] => (n, None)
  | ws :: rest =>
      match ws_Send ws message n with
      | (n', Some err) => (n', Some (ws, err))
      | (n', None) => send_all message rest n'
      end
  end.

(** The events of [k] rounds of the keepalive loop that went well. *)
Definition beats (k : nat) (ws : Conn) : list event :=
  concat (replicate k [EvSleep (60 * Second); EvSend ws heartbeat]).

(** How many times [x] occurs in [l]. *)
Definition occurrences (x : Conn) (l : list Conn) : nat :=
  length (filter (fun y => y = x) l).

(** What a request does to the membership, and the event it leaves. *)
Definition apply_request (l : list Conn) (q : request) : list Conn :=
  match q with
  | ReqRegister r => l ++ [r]
  | ReqUnregister r => remove_first r l
  end.
Definition request_event (q : request) : event :=
  match q with
  | ReqRegister r => EvRegister r
  | ReqUnregister r => EvUnregister r
  end.

(** [k] calls of [Read] in a row: what each returned, and the network after
    the last. *)
Fixpoint Read_times (k : nat) (c : ChatClient) (n : Net)
  : list (string * option error) * Net :=
  match k with
  | 0 => ([], n)
  | S k' =>
      let '(n', r) := Read c n in
      let '(rs, n'') := Read_times k' c n' in
      (r :: rs, n'')
  end.

(** The network a goroutine has reached. *)
Definition outcome_net (o : outcome) : Net :=
  match o with
  | Returned n => n
  | Running n => n
  end.

(** A connection whose handshake the server refuses, seen in a state of the
    machine: it is not a member, no registration of it is under way, and its
    handler is at the password test, at its deferred close or has returned. *)
Definition kept_out (s : ChatServer) (ws : Conn) (m : Machine) : Prop :=
  wf_world (world m)
  /\ (ws ∉ members (world m))
  /\ owner m <> OwCase (ReqRegister ws)
  /\ admits s (supplied_password (net (world m)) ws) = false
  /\ (sessions m !! ws = Some PcCheck
      \/ sessions m !! ws = Some PcClose
      \/ sessions m !! ws = Some PcDone).


(** ** Concrete rooms, for the examples *)

(** A runtime that doubles the capacity of a full array. *)
Definition doubling : nat -> nat -> nat := fun oldcap _ => oldcap - 1.

Definition alice : Conn := 1.
Definition bob : Conn := 2.
Definition carol : Conn := 3.
Definition dave : Conn := 4.
Definition erin : Conn := 5.

(** A connected client that will still deliver [frames]. *)
Definition client_peer (addr query : string) (frames : list string) : Peer :=
  mkPeer addr query frames [] None false.

(** The same, with a transport severed since instant [0]. *)
Definition severed_peer (addr query : string) (frames : list string) : Peer :=
  mkPeer addr query frames [] (Some (0%Z, "broken pipe"%string)) false.

Definition net_of (ps : list (Conn * Peer)) : Net :=
  mkNet (list_to_map ps) [] 0.

Definition public_room : ChatServer := NewChatServer ":8080" "".
Definition private_room : ChatServer := NewChatServer ":8080" "s3cr3t".

(** A world in which [cs] have registered, in this order. *)
Definition registered (cs : list Conn) (n : Net) : World :=
  execute doubling (ReqRegister <$> cs) (new_world n).

(** A client configured for a local server, not yet registered. *)
Definition local_client : ChatClient :=
  NewChatClient "alice"
    (mkServerConfig "http://localhost/" ""
       (url.mkURL "ws" "localhost:8080" "/register" "")).

(** A dialer that hands out connection [dave]. *)
Definition dial_dave (rawurl protocol origin : string) (n : Net)
  : Net * (Conn + error) :=
  (set_peer dave (client_peer "127.0.0.1:8080" "" []) n, inl dave).

(** A client end whose transport is cut at instant [t]. *)
Definition cut_at (t : Z) : Net :=
  mkNet {[dave := mkPeer "127.0.0.1:8080" "" [] []
                    (Some (t, "broken pipe"%string)) false]} [] 0.

(** Alice, Bob and Carol registered; Bob's transport is severed. *)
Definition severed_room : World :=
  registered [alice; bob; carol]
    (net_of [(alice, client_peer "10.0.0.1:4001" "" []);
             (bob, severed_peer "10.0.0.2:4002" "" []);
             (carol, client_peer "10.0.0.3:4003" "" [])]).

(** Alice, Bob and Carol registered; Alice has sent "hello". *)
Definition hello_room : World :=
  registered [alice; bob; carol]
    (net_of [(alice, client_peer "10.0.0.1:4001" "" ["hello"%string]);
             (bob, client_peer "10.0.0.2:4002" "" []);
             (carol, client_peer "10.0.0.3:4003" "" [])]).

(** Alice registered, and the same connection registered once more. *)
Definition solo_room : World :=
  registered [alice] (net_of [(alice, client_peer "10.0.0.1:4001" "" [])]).
Definition double_room : World :=
  execute_case doubling (ReqRegister alice) solo_room.

(** Three sessions about to start in a public room; Carol will send "m" and
    Alice will disconnect. *)
Definition race_net : Net :=
  net_of [(alice, client_peer "10.0.0.1:4001" "" []);
          (bob, client_peer "10.0.0.2:4002" "" []);
          (carol, client_peer "10.0.0.3:4003" "" ["m"%string])].
Definition race_start : Machine :=
  mkMachine (new_world race_net) OwSelect
    (list_to_map [(alice, PcCheck); (bob, PcCheck); (carol, PcCheck)]).

(** The three register; Carol receives "m", enters [Broadcast] and writes to
    the first member; Alice's receive fails and she hands her unregistration
    to the owner. *)
Definition race_prefix : list actor :=
  [Session alice; Session alice; Owner;
   Session bob; Session bob; Owner;
   Session carol; Session carol; Owner;
   Session carol; Session carol; Session carol;
   Session alice; Session alice].

(** The owner removes Alice; Carol's loop goes on over the slice header it
    read before the removal. *)
Definition race_suffix : list actor :=
  [Owner; Session carol; Session carol; Session carol].

(** Alice registered; Dave connects with the right password, Carol with a
    wrong one and Erin with none. *)
Definition lobby : World :=
  registered [alice]
    (net_of [(alice, client_peer "10.0.0.1:4001" "pwd=s3cr3t" []);
             (dave, client_peer "10.0.0.4:4004" "pwd=s3cr3t" ["hi"%string]);
             (carol, client_peer "10.0.0.3:4003" "pwd=wrong" []);
             (erin, client_peer "10.0.0.5:4005" "" [])]).

(** A private room with Alice registered, Dave and Carol at the start of
    their handlers. *)
Definition lobby_start : Machine :=
  mkMachine lobby OwSelect (list_to_map [(dave, PcCheck); (carol, PcCheck)]).

(* ================================================================= *)
(** * Properties *)

(** ** Heap cells and slice views *)

Lemma cells_insert_self (h : Heap) p a :
  p < length h -> cells (<[p := a]> h) p = a.
Proof.
  intros Hp. unfold cells. by rewrite list_lookup_insert_eq.
Qed.

Lemma cells_insert_other (h : Heap) p q a :
  p <> q -> cells (<[p := a]> h) q = cells h q.
Proof.
  intros Hne. unfold cells. by rewrite list_lookup_insert_ne.
Qed.

Lemma cells_outside (h : Heap) p : length h <= p -> cells h p = [].
Proof.
  intros Hp. unfold cells. by rewrite lookup_ge_None_2.
Qed.

(** Overwriting part of an array in place is visible through [cells], also
    for an address that is not allocated (where there is nothing to write). *)
Lemma cells_write (h : Heap) p k (e : list Conn) :
  cells (<[p := list_inserts k e (cells h p)]> h) p
  = list_inserts k e (cells h p).
Proof.
  destruct (decide (p < length h)) as [Hp|Hp].
  - by apply cells_insert_self.
  - rewrite list_insert_ge by lia.
    rewrite (cells_outside h p) by lia. by rewrite list_inserts_nil.
Qed.

Lemma cells_app_old (h h' : Heap) p :
  p < length h -> cells (h ++ h') p = cells h p.
Proof.
  intros Hp. unfold cells. by rewrite lookup_app_l.
Qed.

Lemma cells_app_fresh (h : Heap) a : cells (h ++ [a]) (length h) = a.
Proof.
  unfold cells. rewrite lookup_app_r by lia.
  by rewrite Nat.sub_diag.
Qed.

Lemma view_length h s : wf_slice h s -> length (view h s) = len s.
Proof.
  intros [Hc Hl]. unfold view.
  rewrite length_take_le; [done|]. rewrite length_drop. lia.
Qed.

Lemma view_lookup h s i :
  wf_slice h s -> i < len s -> view h s !! i = Some (index h s i).
Proof.
  intros [Hc Hl] Hi. unfold view, index.
  rewrite lookup_take_lt by done. rewrite lookup_drop.
  destruct (lookup_lt_is_Some_2 (cells h (ptr s)) (off s + i)) as [x Hx];
    [lia|].
  by rewrite Hx.
Qed.

Lemma view_slice_to h s i :
  i <= len s -> view h (slice_to s i) = take i (view h s).
Proof.
  intros Hi. unfold view, slice_to; simpl.
  rewrite take_take. by rewrite Nat.min_l.
Qed.

Lemma view_slice_from h s k :
  view h (slice_from s k) = drop k (view h s).
Proof.
  unfold view, slice_from; simpl.
  rewrite <- drop_drop.
  destruct (decide (k <= len s)) as [Hk|Hk].
  - rewrite take_drop_commute.
    replace (k + (len s - k)) with (len s) by lia. done.
  - replace (len s - k) with 0 by lia. simpl.
    symmetry. apply drop_ge. rewrite length_take. lia.
Qed.

Lemma view_app_heap (h h' : Heap) s :
  wf_slice h s -> view (h ++ h') s = view h s /\ wf_slice (h ++ h') s.
Proof.
  intros [Hc Hl].
  destruct (decide (ptr s < length h)) as [Hp|Hp].
  - unfold view, wf_slice. rewrite cells_app_old by done. done.
  - rewrite cells_outside in Hc by lia. simpl in Hc.
    unfold view, wf_slice. replace (len s) with 0 by lia.
    split; [done|]. lia.
Qed.

(** Writing [e] right after the first [l] elements seen from offset [o]. *)
Lemma take_drop_inserts (arr e : list Conn) o l :
  o + l + length e <= length arr ->
  take (l + length e) (drop o (list_inserts (o + l) e arr))
  = take l (drop o arr) ++ e.
Proof.
  intros Hfit. apply list_eq. intros j.
  assert (Hlen : length (take l (drop o arr)) = l).
  { rewrite length_take_le; [done|]. rewrite length_drop. lia. }
  destruct (decide (j < l)) as [Hj|Hj].
  - rewrite lookup_take_lt by lia. rewrite lookup_drop.
    rewrite list_lookup_inserts_lt by lia.
    rewrite lookup_app_l by lia.
    rewrite lookup_take_lt by lia. by rewrite lookup_drop.
  - rewrite lookup_app_r by lia. rewrite Hlen.
    destruct (decide (j < l + length e)) as [Hj'|Hj'].
    + rewrite lookup_take_lt by lia. rewrite lookup_drop.
      rewrite list_lookup_inserts by lia. f_equal. lia.
    + rewrite lookup_take_ge by lia. symmetry.
      apply lookup_ge_None_2. lia.
Qed.

Lemma remove_first_absent x l : x ∉ l -> remove_first x l = l.
Proof.
  induction l as [|y l IH]; intros Hx; simpl; [done|].
  apply not_elem_of_cons in Hx as [Hne Hx].
  case_decide; [congruence|]. by rewrite IH.
Qed.

Lemma remove_first_length x l :
  x ∈ l -> S (length (remove_first x l)) = length l.
Proof.
  induction l as [|y l IH]; intros Hx; simpl.
  - by apply elem_of_nil in Hx.
  - case_decide; [done|]. simpl. f_equal. apply IH.
    apply elem_of_cons in Hx as [->|Hx]; [congruence|done].
Qed.

Lemma occurrences_cons x y l :
  occurrences x (y :: l)
  = (if decide (y = x) then 1 else 0) + occurrences x l.
Proof.
  unfold occurrences. rewrite filter_cons. by case_decide.
Qed.

Lemma occurrences_zero x l : occurrences x l = 0 <-> x ∉ l.
Proof.
  induction l as [|y l IH].
  - split; [intros _; apply not_elem_of_nil|done].
  - rewrite occurrences_cons, not_elem_of_cons. case_decide; subst.
    + split; [lia|]. intros [Hne _]. congruence.
    + simpl. rewrite IH. split; [intros; split; congruence|tauto].
Qed.

Lemma occurrences_remove_first x l :
  x ∈ l -> S (occurrences x (remove_first x l)) = occurrences x l.
Proof.
  induction l as [|y l IH]; intros Hx.
  - by apply elem_of_nil in Hx.
  - rewrite occurrences_cons. simpl. case_decide as Hy; [done|].
    rewrite occurrences_cons. case_decide; [congruence|]. simpl.
    apply IH. apply elem_of_cons in Hx as [->|Hx]; [congruence|done].
Qed.

Lemma remove_first_once x l :
  occurrences x l <= 1 -> x ∉ remove_first x l.
Proof.
  intros Hocc. destruct (decide (x ∈ l)) as [Hx|Hx].
  - apply occurrences_zero.
    pose proof (occurrences_remove_first x l Hx). lia.
  - by rewrite remove_first_absent.
Qed.

(** ** Transport *)

Lemma write_error_known n c : write_error n c = None -> is_Some (peers n !! c).
Proof.
  unfold write_error. destruct (peers n !! c); [eauto|discriminate].
Qed.

Lemma ws_Send_ok ws m n :
  write_error n ws = None -> ws_Send ws m n = (deliver m n ws, None).
Proof.
  unfold write_error, ws_Send, deliver.
  destruct (peers n !! ws) as [p|]; [|discriminate].
  by intros ->.
Qed.

Lemma ws_Send_err ws m n e :
  write_error n ws = Some e ->
  ws_Send ws m n = (emit (EvSendErr ws e) n, Some e).
Proof.
  unfold write_error, ws_Send.
  destruct (peers n !! ws) as [p|].
  - by intros ->.
  - by intros [= <-].
Qed.

Lemma peers_deliver m n ws c :
  peers (deliver m n ws) !! c
  = if decide (ws = c)
    then (fun p => with_outbox p (outbox p ++ [m])) <$> peers n !! c
    else peers n !! c.
Proof.
  unfold deliver. simpl. case_decide as Hc.
  - subst c. destruct (peers n !! ws) as [p|] eqn:Hp; simpl.
    + by rewrite lookup_insert_eq.
    + by rewrite Hp.
  - destruct (peers n !! ws) as [p|]; simpl; [|done].
    by rewrite lookup_insert_ne.
Qed.

Lemma now_deliver m n ws : now (deliver m n ws) = now n.
Proof. unfold deliver. by destruct (peers n !! ws). Qed.

Lemma trace_deliver m n ws : trace (deliver m n ws) = trace n ++ [EvSend ws m].
Proof. unfold deliver. by destruct (peers n !! ws). Qed.

Lemma write_error_deliver m n ws c :
  write_error (deliver m n ws) c = write_error n c.
Proof.
  unfold write_error. rewrite peers_deliver, now_deliver.
  case_decide; [|done]. by destruct (peers n !! c).
Qed.

Lemma pending_deliver m n ws c : pending (deliver m n ws) c = pending n c.
Proof.
  unfold pending. rewrite peers_deliver.
  case_decide; [|done]. by destruct (peers n !! c).
Qed.

Lemma is_closed_deliver m n ws c : is_closed (deliver m n ws) c = is_closed n c.
Proof.
  unfold is_closed. rewrite peers_deliver.
  case_decide; [|done]. by destruct (peers n !! c).
Qed.

Lemma received_deliver m n ws c :
  is_Some (peers n !! ws) ->
  received (deliver m n ws) c
  = received n c ++ (if decide (ws = c) then [m] else []).
Proof.
  intros [p Hp]. unfold received. rewrite peers_deliver.
  case_decide; [|by rewrite app_nil_r].
  subst c. by rewrite Hp.
Qed.

Lemma trace_foldl_deliver m l : forall n,
  trace (foldl (deliver m) n l) = trace n ++ ((fun c => EvSend c m) <$> l).
Proof.
  induction l as [|ws l IH]; intros n; simpl.
  - by rewrite app_nil_r.
  - rewrite IH, trace_deliver. by rewrite <- app_assoc.
Qed.

(** Each member gets the message once per occurrence in the list. *)
Lemma received_foldl_deliver m l : forall n x,
  (forall c, c ∈ l -> is_Some (peers n !! c)) ->
  received (foldl (deliver m) n l) x
  = received n x ++ replicate (occurrences x l) m.
Proof.
  induction l as [|ws l IH]; intros n x Hknown; simpl.
  - by rewrite app_nil_r.
  - rewrite IH.
    + rewrite received_deliver by (apply Hknown; left).
      rewrite occurrences_cons. rewrite <- app_assoc. f_equal.
      by case_decide.
    + intros c Hc. rewrite peers_deliver.
      case_decide; [|apply Hknown; by right].
      rewrite fmap_is_Some. apply Hknown. by right.
Qed.

Lemma send_all_ok m l : forall n,
  (forall c, c ∈ l -> write_error n c = None) ->
  send_all m l n = (foldl (deliver m) n l, None).
Proof.
  induction l as [|ws l IH]; intros n Hok; simpl; [done|].
  rewrite ws_Send_ok by (apply Hok; left).
  apply IH. intros c Hc. rewrite write_error_deliver. apply Hok. by right.
Qed.

Lemma send_all_fail m l1 c e l2 : forall n,
  (forall x, x ∈ l1 -> write_error n x = None) ->
  write_error n c = Some e ->
  send_all m (l1 ++ c :: l2) n
  = (emit (EvSendErr c e) (foldl (deliver m) n l1), Some (c, e)).
Proof.
  induction l1 as [|ws l1 IH]; intros n Hok Hc; simpl.
  - by rewrite (ws_Send_err _ _ _ _ Hc).
  - rewrite ws_Send_ok by (apply Hok; left).
    apply IH.
    + intros x Hx. rewrite write_error_deliver. apply Hok. by right.
    + by rewrite write_error_deliver.
Qed.

Lemma ws_Send_cases ws m n :
  ws_Send ws m n = (deliver m n ws, None)
  \/ exists e, ws_Send ws m n = (emit (EvSendErr ws e) n, Some e).
Proof.
  destruct (write_error n ws) as [e|] eqn:He.
  - right. exists e. by apply ws_Send_err.
  - left. by apply ws_Send_ok.
Qed.

Lemma writes_only_refl n : writes_only n n.
Proof.
  split_and!; [done..|]. exists []. by rewrite app_nil_r.
Qed.

Lemma writes_only_trans n1 n2 n3 :
  writes_only n1 n2 -> writes_only n2 n3 -> writes_only n1 n3.
Proof.
  intros (Hp1 & Hc1 & evs1 & Ht1) (Hp2 & Hc2 & evs2 & Ht2).
  split_and!.
  - intros c. by rewrite Hp2.
  - intros c. by rewrite Hc2.
  - exists (evs1 ++ evs2). by rewrite Ht2, Ht1, app_assoc.
Qed.

Lemma writes_only_emit e n : writes_only n (emit e n).
Proof.
  split_and!; [done..|]. by exists [e].
Qed.

Lemma writes_only_deliver m n ws : writes_only n (deliver m n ws).
Proof.
  split_and!.
  - intros c. apply pending_deliver.
  - intros c. apply is_closed_deliver.
  - exists [EvSend ws m]. apply trace_deliver.
Qed.

Lemma writes_only_ws_Send ws m n : writes_only n (ws_Send ws m n).1.
Proof.
  destruct (ws_Send_cases ws m n) as [->|[e ->]]; simpl.
  - apply writes_only_deliver.
  - apply writes_only_emit.
Qed.

Lemma writes_only_send_all m l : forall n, writes_only n (send_all m l n).1.
Proof.
  induction l as [|ws l IH]; intros n; simpl.
  - apply writes_only_refl.
  - pose proof (writes_only_ws_Send ws m n) as Hs.
    destruct (ws_Send ws m n) as [n' [err|]]; simpl in *; [done|].
    eapply writes_only_trans; [exact Hs|apply IH].
Qed.

(** The outcomes of a receive. *)
Lemma ws_Receive_cases ws n :
  (exists e, ws_Receive ws n = (emit (EvRecvErr ws e) n, inr e)
             /\ (is_closed n ws = true \/ pending n ws = []))
  \/ (exists m rest,
        ws_Receive ws n = (consume n ws, inl m)
        /\ is_closed n ws = false
        /\ pending n ws = m :: rest
        /\ pending (consume n ws) ws = rest
        /\ trace (consume n ws) = trace n ++ [EvRecv ws m]).
Proof.
  unfold ws_Receive, consume, is_closed, pending.
  destruct (peers n !! ws) as [p|] eqn:Hp; simpl.
  - destruct (closed p) eqn:Hc.
    + left. exists errClosed. split; [done|by left].
    + destruct (inbox p) as [|m rest] eqn:Hi.
      * left. exists errEOF. split; [done|by right].
      * right. exists m, rest. simpl. rewrite lookup_insert_eq. done.
  - left. exists errClosed. split; [done|by left].
Qed.

Lemma peers_consume n ws c :
  c <> ws -> peers (consume n ws) !! c = peers n !! c.
Proof.
  intros Hc. unfold consume.
  destruct (peers n !! ws) as [p|]; [|done].
  destruct (inbox p); [done|]. simpl. by rewrite lookup_insert_ne.
Qed.

Lemma received_consume n ws c : received (consume n ws) c = received n c.
Proof.
  unfold received. destruct (decide (c = ws)) as [->|Hc].
  - unfold consume. destruct (peers n !! ws) as [p|] eqn:Hp; [|by rewrite Hp].
    destruct (inbox p); [by rewrite Hp|]. simpl.
    by rewrite lookup_insert_eq.
  - by rewrite peers_consume.
Qed.

Lemma write_error_consume n ws c :
  write_error (consume n ws) c = write_error n c.
Proof.
  unfold write_error. destruct (decide (c = ws)) as [->|Hc].
  - unfold consume. destruct (peers n !! ws) as [p|] eqn:Hp; [|by rewrite Hp].
    destruct (inbox p); [by rewrite Hp|]. simpl.
    by rewrite lookup_insert_eq.
  - rewrite peers_consume by done.
    replace (now (consume n ws)) with (now n); [done|].
    unfold consume. destruct (peers n !! ws) as [p|]; [|done].
    by destruct (inbox p).
Qed.

Lemma occurrences_remove_first_le x c l :
  occurrences x (remove_first c l) <= occurrences x l.
Proof.
  induction l as [|y l IH]; simpl; [done|].
  rewrite occurrences_cons. case_decide.
  - lia.
  - rewrite occurrences_cons. lia.
Qed.

Lemma occurrences_app x l1 l2 :
  occurrences x (l1 ++ l2) = occurrences x l1 + occurrences x l2.
Proof.
  unfold occurrences. by rewrite filter_app, length_app.
Qed.

Lemma occurrences_pos x l : x ∈ l <-> 0 < occurrences x l.
Proof.
  destruct (decide (x ∈ l)) as [Hx|Hx].
  - split; [|done]. intros _.
    destruct (occurrences x l) eqn:Ho; [|lia].
    by apply occurrences_zero in Ho.
  - split; [done|]. intros Hpos.
    apply occurrences_zero in Hx. lia.
Qed.

Lemma occurrences_NoDup x l : NoDup l -> x ∈ l -> occurrences x l = 1.
Proof.
  induction 1 as [|y l Hy Hnd IH]; intros Hx.
  - by apply elem_of_nil in Hx.
  - rewrite occurrences_cons. case_decide as Heq.
    + subst y. apply occurrences_zero in Hy. lia.
    + apply elem_of_cons in Hx as [->|Hx]; [congruence|]. by rewrite IH.
Qed.

Lemma remove_first_middle c l1 l2 :
  c ∉ l1 -> remove_first c (l1 ++ c :: l2) = l1 ++ l2.
Proof.
  induction l1 as [|y l1 IH]; intros Hc; simpl.
  - by case_decide.
  - apply not_elem_of_cons in Hc as [Hne Hc].
    case_decide; [congruence|]. by rewrite IH.
Qed.

Lemma trace_ws_Close ws n : trace (ws_Close ws n) = trace n ++ [EvClose ws].
Proof. unfold ws_Close. by destruct (peers n !! ws). Qed.

Lemma is_closed_ws_Close ws n : is_closed (ws_Close ws n) ws = true.
Proof.
  unfold ws_Close, is_closed.
  destruct (peers n !! ws) as [p|] eqn:Hp; simpl.
  - by rewrite lookup_insert_eq.
  - by rewrite Hp.
Qed.



Section PoolFacts.

Variable slack : nat -> nat -> nat.

Lemma append_in_place h s elems :
  len s + length elems <= cap s ->
  append slack h s elems
  = (<[ptr s := list_inserts (off s + len s) elems (cells h (ptr s))]> h,
     mkSlice (ptr s) (off s) (len s + length elems) (cap s)).
Proof.
  intros Hfit. unfold append. by case_decide.
Qed.

Lemma append_in_place_spec h s elems h' s' :
  wf_slice h s -> len s + length elems <= cap s ->
  append slack h s elems = (h', s') ->
  view h' s' = view h s ++ elems
  /\ wf_slice h' s' /\ length h' = length h
  /\ (forall q, q <> ptr s -> cells h' q = cells h q)
  /\ s' = mkSlice (ptr s) (off s) (len s + length elems) (cap s).
Proof.
  intros [Hc Hl] Hfit Happ. rewrite append_in_place in Happ by done.
  injection Happ as <- <-.
  split_and!.
  - unfold view at 1; simpl. rewrite cells_write.
    rewrite take_drop_inserts by lia. done.
  - unfold wf_slice; simpl. rewrite cells_write, length_inserts. lia.
  - apply length_insert.
  - intros q Hq. by apply cells_insert_other.
  - done.
Qed.

(** The loop of [removeConn], entered at index [i] with no match before
    [i], returns the elements before [i] followed by the rest without its
    first [x]. *)
Lemma removeConn_range_spec h s x ns n : forall i h' s',
  wf_slice h s -> i + n = len s ->
  removeConn_range slack h s x ns i n = (h', s') ->
  view h' s' = take i (view h s) ++ remove_first x (drop i (view h s))
  /\ wf_slice h' s' /\ length h' = length h
  /\ (forall q, q <> ptr s -> cells h' q = cells h q)
  /\ ptr s' = ptr s /\ off s' = off s /\ cap s' = cap s.
Proof.
  induction n as [|n IH]; intros i h' s' Hwf Hin Hrun; simpl in Hrun.
  - injection Hrun as <- <-.
    rewrite drop_ge by (rewrite view_length by done; lia).
    rewrite take_ge by (rewrite view_length by done; lia).
    simpl. rewrite app_nil_r. done.
  - assert (Hi : view h s !! i = Some (index h s i))
      by (apply view_lookup; [done|lia]).
    rewrite (drop_S _ _ _ Hi). simpl.
    case_decide as Hx.
    + destruct (append slack h (slice_to s i)
                  (view h (slice_from s (i + 1)))) as [h1 s1] eqn:Happ.
      injection Hrun as <- <-.
      assert (Hwf' : wf_slice h (slice_to s i)).
      { destruct Hwf as [Hc Hl]. unfold wf_slice, slice_to; simpl. lia. }
      apply append_in_place_spec in Happ; [|done|].
      * destruct Happ as (Hv & Hw & Hlen & Hoth & ->). simpl in *.
        rewrite view_slice_to in Hv by lia.
        rewrite view_slice_from in Hv, Hw.
        replace (i + 1) with (S i) in Hv, Hw by lia.
        rewrite view_slice_from. replace (i + 1) with (S i) by lia.
        done.
      * simpl. rewrite view_slice_from, length_drop, view_length by done.
        destruct Hwf as [Hc Hl]. lia.
    + apply IH in Hrun; [|done|lia].
      destruct Hrun as (Hv & Hrest). split; [|done].
      rewrite Hv. rewrite (take_S_r _ _ _ Hi).
      by rewrite <- app_assoc.
Qed.

(** When no element matches, the loop returns its argument and touches
    nothing. *)
Lemma removeConn_range_absent h s x ns n : forall i,
  wf_slice h s -> i + n = len s ->
  x ∉ drop i (view h s) ->
  removeConn_range slack h s x ns i n = (h, s).
Proof.
  induction n as [|n IH]; intros i Hwf Hin Hx; simpl; [done|].
  assert (Hi : view h s !! i = Some (index h s i))
    by (apply view_lookup; [done|lia]).
  rewrite (drop_S _ _ _ Hi) in Hx.
  apply not_elem_of_cons in Hx as [Hne Hx].
  case_decide; [congruence|]. apply IH; [done|lia|done].
Qed.

Lemma removeConn_unfold h s x :
  removeConn slack h s x
  = removeConn_range slack
      (h ++ [replicate (if decide (len s <= 0) then 0 else len s - 1) nil_conn])
      s x
      (mkSlice (length h) 0
         (if decide (len s <= 0) then 0 else len s - 1)
         (if decide (len s <= 0) then 0 else len s - 1))
      0 (len s).
Proof. reflexivity. Qed.

Lemma removeConn_spec h s x h' s' :
  wf_slice h s ->
  removeConn slack h s x = (h', s') ->
  view h' s' = remove_first x (view h s)
  /\ wf_slice h' s'
  /\ length h' = S (length h)
  /\ (forall q, q < length h -> q <> ptr s -> cells h' q = cells h q)
  /\ ptr s' = ptr s /\ off s' = off s /\ cap s' = cap s.
Proof.
  intros Hwf Hrun. rewrite removeConn_unfold in Hrun.
  set (h1 := h ++ _) in Hrun.
  destruct (view_app_heap h
              [replicate (if decide (len s <= 0) then 0 else len s - 1) nil_conn]
              s Hwf) as [Hv1 Hwf1].
  fold h1 in Hv1, Hwf1.
  apply removeConn_range_spec in Hrun; [|done|lia].
  destruct Hrun as (Hv & Hw & Hlen & Hoth & Hp & Ho & Hc).
  rewrite Hv1 in Hv. simpl in Hv.
  split; [by rewrite drop_0 in Hv|]. split; [done|].
  split; [rewrite Hlen; unfold h1; rewrite length_app; simpl; lia|].
  split; [|done].
  intros q Hq Hne. rewrite Hoth by done. unfold h1. by apply cells_app_old.
Qed.

Lemma removeConn_absent h s x :
  wf_slice h s -> x ∉ view h s ->
  exists garbage, removeConn slack h s x = (h ++ [garbage], s).
Proof.
  intros Hwf Hx. rewrite removeConn_unfold.
  eexists. apply removeConn_range_absent.
  - by apply view_app_heap.
  - lia.
  - rewrite drop_0. by rewrite (proj1 (view_app_heap _ _ _ Hwf)).
Qed.

(** C4 (amended): for every well-formed slice and every connection [x],
    [removeConn] returns the slice with the first occurrence of [x] removed
    when [x] is present (one element shorter) and the original slice,
    unchanged, when [x] is absent; when [x] occurs at most once, removing it a
    second time changes nothing.  The result lives in the argument's own
    array: the array the helper preallocates is never part of it. *)
Theorem removeConn_removes_first_occurrence h s x h' s' :
  wf_slice h s ->
  removeConn slack h s x = (h', s') ->
  view h' s' = remove_first x (view h s)
  /\ (x ∈ view h s -> S (length (view h' s')) = length (view h s))
  /\ (x ∉ view h s -> s' = s /\ view h' s' = view h s)
  /\ (occurrences x (view h s) <= 1 ->
      forall h'' s'', removeConn slack h' s' x = (h'', s'') ->
        s'' = s' /\ view h'' s'' = view h' s')
  /\ ptr s' = ptr s /\ wf_slice h' s'.
Proof.
  intros Hwf Hrun.
  destruct (removeConn_spec h s x h' s' Hwf Hrun)
    as (Hv & Hwf' & _ & _ & Hp & _).
  split; [done|]. split; [|split; [|split]].
  - intros Hx. rewrite Hv. by apply remove_first_length.
  - intros Hx. destruct (removeConn_absent h s x Hwf Hx) as [g Hg].
    rewrite Hg in Hrun. injection Hrun as <- <-.
    split; [done|]. by apply view_app_heap.
  - intros Hocc h'' s'' Hrun2.
    assert (Hx : x ∉ view h' s') by (rewrite Hv; by apply remove_first_once).
    destruct (removeConn_absent h' s' x Hwf' Hx) as [g Hg].
    rewrite Hg in Hrun2. injection Hrun2 as <- <-.
    split; [done|]. by apply view_app_heap.
  - done.
Qed.

(** ** The owner's cases *)

Lemma append_spec h s elems h' s' :
  wf_slice h s ->
  append slack h s elems = (h', s') ->
  view h' s' = view h s ++ elems /\ wf_slice h' s'.
Proof.
  intros Hwf Happ.
  destruct (decide (len s + length elems <= cap s)) as [Hfit|Hfit].
  - apply append_in_place_spec in Happ; [|done..]. tauto.
  - unfold append in Happ. case_decide; [lia|].
    injection Happ as <- <-.
    pose proof (view_length h s Hwf) as Hlen.
    split.
    + unfold view at 1; simpl. rewrite cells_app_fresh. simpl.
      rewrite drop_0, app_assoc.
      rewrite take_app_length'; [done|].
      rewrite length_app. lia.
    + unfold wf_slice; simpl. rewrite cells_app_fresh.
      rewrite !length_app, length_replicate. lia.
Qed.

Lemma execute_case_register r w :
  wf_world w ->
  members (execute_case slack (ReqRegister r) w) = members w ++ [r]
  /\ wf_world (execute_case slack (ReqRegister r) w)
  /\ net (execute_case slack (ReqRegister r) w) = emit (EvRegister r) (net w).
Proof.
  intros Hwf. unfold execute_case.
  destruct (append slack (heap w) (connections w) [r]) as [h' s'] eqn:Happ.
  apply append_spec in Happ as [Hv Hw]; [|done].
  by split_and!.
Qed.

Lemma execute_case_unregister r w :
  wf_world w ->
  members (execute_case slack (ReqUnregister r) w)
  = remove_first r (members w)
  /\ wf_world (execute_case slack (ReqUnregister r) w)
  /\ net (execute_case slack (ReqUnregister r) w)
     = emit (EvUnregister r) (net w).
Proof.
  intros Hwf. unfold execute_case.
  destruct (removeConn slack (heap w) (connections w) r) as [h' s'] eqn:Hrm.
  apply removeConn_spec in Hrm; [|done].
  destruct Hrm as (Hv & Hw & _). by split_and!.
Qed.

(** ** Broadcast *)

Lemma with_net_id w : with_net w (net w) = w.
Proof. by destruct w. Qed.

(** The loop of [Broadcast] writes to the elements of the slice it was
    entered with, in order, up to the first failure. *)
Lemma Broadcast_range_send_all m conns n : forall i w,
  wf_slice (heap w) conns -> i + n = len conns ->
  Broadcast_range slack m conns i n w
  = match send_all m (drop i (view (heap w) conns)) (net w) with
    | (n', None) => (with_net w n', None)
    | (n', Some (ws, err)) =>
        (execute_case slack (ReqUnregister ws) (with_net w n'), Some err)
    end.
Proof.
  induction n as [|n IH]; intros i w Hwf Hin; simpl.
  - rewrite drop_ge by (rewrite view_length by done; lia).
    simpl. by rewrite with_net_id.
  - assert (Hi : view (heap w) conns !! i = Some (index (heap w) conns i))
      by (apply view_lookup; [done|lia]).
    rewrite (drop_S _ _ _ Hi). simpl. unfold Broadcast_iter.
    destruct (ws_Send (index (heap w) conns i) m (net w)) as [n' [err|]].
    + done.
    + rewrite IH; [done|done|lia].
Qed.

Lemma Broadcast_send_all m w :
  wf_world w ->
  Broadcast slack m w
  = match send_all m (members w) (net w) with
    | (n', None) => (with_net w n', None)
    | (n', Some (ws, err)) =>
        (execute_case slack (ReqUnregister ws) (with_net w n'), Some err)
    end.
Proof.
  intros Hwf. unfold Broadcast.
  rewrite Broadcast_range_send_all; [|done|lia].
  by rewrite drop_0.
Qed.

Lemma Broadcast_all_ok m w :
  wf_world w ->
  (forall c, c ∈ members w -> write_error (net w) c = None) ->
  Broadcast slack m w
  = (with_net w (foldl (deliver m) (net w) (members w)), None).
Proof.
  intros Hwf Hok. rewrite Broadcast_send_all by done.
  by rewrite send_all_ok.
Qed.

Lemma Broadcast_first_failure m w l1 c e l2 :
  wf_world w ->
  members w = l1 ++ c :: l2 ->
  (forall x, x ∈ l1 -> write_error (net w) x = None) ->
  write_error (net w) c = Some e ->
  Broadcast slack m w
  = (execute_case slack (ReqUnregister c)
       (with_net w (emit (EvSendErr c e) (foldl (deliver m) (net w) l1))),
     Some e).
Proof.
  intros Hwf Hmem Hok Hc. rewrite Broadcast_send_all by done.
  rewrite Hmem. by rewrite (send_all_fail m l1 c e l2).
Qed.

(** [Broadcast] never adds a member, receives nothing and closes nothing. *)
Lemma Broadcast_invariant m w :
  wf_world w ->
  wf_world (Broadcast slack m w).1
  /\ writes_only (net w) (net (Broadcast slack m w).1)
  /\ (forall x, occurrences x (members (Broadcast slack m w).1)
                <= occurrences x (members w)).
Proof.
  intros Hwf. rewrite Broadcast_send_all by done.
  pose proof (writes_only_send_all m (members w) (net w)) as Hs.
  destruct (send_all m (members w) (net w)) as [n' [[ws err]|]];
    cbn [fst] in *.
  - assert (Hwf' : wf_world (with_net w n')) by done.
    destruct (execute_case_unregister ws _ Hwf') as (Hm & Hw & Hn).
    split; [done|]. split.
    + rewrite Hn. eapply writes_only_trans; [exact Hs|].
      apply writes_only_emit.
    + intros x. rewrite Hm. apply occurrences_remove_first_le.
  - split; [done|]. split; [done|]. intros x. done.
Qed.

(** ** The receive loop *)



(** ** The claims about the pool and the session handler *)

(** C1 (what the code does at a failed write): when the first member whose
    write fails is [c], with the members [l1] before it and [l2] after it
    in the pool, [Broadcast] returns that error, evicts exactly [c], has
    delivered the message to the members of [l1] only, and has written
    nothing to a member that stands after [c]: the loop returns at the
    failure instead of going on to the remaining members, and its trace is
    the writes to [l1], the failed write and the unregistration. *)
Theorem Broadcast_aborts_at_first_failure m w l1 c e l2 :
  wf_world w ->
  members w = l1 ++ c :: l2 ->
  (forall x, x ∈ l1 -> write_error (net w) x = None) ->
  write_error (net w) c = Some e ->
  (Broadcast slack m w).2 = Some e
  /\ members (Broadcast slack m w).1 = l1 ++ l2
  /\ trace (net (Broadcast slack m w).1)
     = trace (net w) ++ ((fun x => EvSend x m) <$> l1)
       ++ [EvSendErr c e; EvUnregister c]
  /\ (forall x, received (net (Broadcast slack m w).1) x
                = received (net w) x ++ replicate (occurrences x l1) m)
  /\ (forall x, x ∈ l2 -> x ∉ l1 ->
        received (net (Broadcast slack m w).1) x = received (net w) x).
Proof.
  intros Hwf Hmem Hok Hc.
  rewrite (Broadcast_first_failure m w l1 c e l2) by done.
  cbn [fst snd].
  set (n1 := emit (EvSendErr c e) (foldl (deliver m) (net w) l1)).
  assert (Hwf' : wf_world (with_net w n1)) by done.
  destruct (execute_case_unregister c _ Hwf') as (Hm & _ & Hn).
  assert (Hnot : c ∉ l1).
  { intros Hin. specialize (Hok c Hin). congruence. }
  assert (Hrecv : forall x, received
            (net (execute_case slack (ReqUnregister c) (with_net w n1))) x
          = received (net w) x ++ replicate (occurrences x l1) m).
  { intros x. rewrite Hn.
    change (received (foldl (deliver m) (net w) l1) x
            = received (net w) x ++ replicate (occurrences x l1) m).
    apply received_foldl_deliver.
    intros y Hy. apply write_error_known. by apply Hok. }
  split; [done|]. split; [|split].
  - rewrite Hm. change (members (with_net w n1)) with (members w).
    rewrite Hmem. by apply remove_first_middle.
  - rewrite Hn. unfold n1. simpl. rewrite trace_foldl_deliver.
    by rewrite <- !app_assoc.
  - split; [exact Hrecv|].
    intros x _ Hx. rewrite Hrecv.
    apply occurrences_zero in Hx. rewrite Hx. simpl. by rewrite app_nil_r.
Qed.

(** C5 (amended): registering a connection appends it to the membership
    whether or not it is already there, so a connection registered again
    while present is held one more time; the membership stays free of
    duplicates exactly when the connection was not a member.  A broadcast
    over healthy members then writes the message to every connection once
    per entry it has in the membership: exactly once to each member when
    the membership is free of duplicates. *)
Theorem register_appends_without_dedup r w :
  wf_world w ->
  members (execute_case slack (ReqRegister r) w) = members w ++ [r]
  /\ occurrences r (members (execute_case slack (ReqRegister r) w))
     = S (occurrences r (members w))
  /\ (NoDup (members (execute_case slack (ReqRegister r) w))
      <-> NoDup (members w) /\ r ∉ members w)
  /\ forall m,
       (forall c, c ∈ members w ++ [r] -> write_error (net w) c = None) ->
       (forall x,
          received
            (net (Broadcast slack m (execute_case slack (ReqRegister r) w)).1) x
          = received (net w) x
            ++ replicate (occurrences x (members w ++ [r])) m)
       /\ (NoDup (members w) -> r ∉ members w ->
           forall x, x ∈ members w ++ [r] ->
             received
               (net (Broadcast slack m
                       (execute_case slack (ReqRegister r) w)).1) x
             = received (net w) x ++ [m]).
Proof.
  intros Hwf.
  destruct (execute_case_register r w Hwf) as (Hm & Hw & Hn).
  assert (Hnd : NoDup (members w ++ [r]) <-> NoDup (members w) /\ r ∉ members w).
  { rewrite NoDup_app. split.
    - intros (Hnd & Hdisj & _). split; [done|].
      intros Hr. apply (Hdisj r Hr). by apply list_elem_of_singleton.
    - intros [Hnd Hr]. split; [done|]. split.
      + intros x Hx Hx'. apply list_elem_of_singleton in Hx'. by subst.
      + apply NoDup_singleton. }
  split; [done|]. split; [|split].
  - rewrite Hm, occurrences_app, occurrences_cons.
    case_decide; [|done]. change (occurrences r []) with 0. lia.
  - by rewrite Hm.
  - intros m Hok.
    assert (Hall : forall x,
              received
                (net (Broadcast slack m
                        (execute_case slack (ReqRegister r) w)).1) x
              = received (net w) x
                ++ replicate (occurrences x (members w ++ [r])) m).
    { intros x. rewrite Broadcast_all_ok; [|done|].
      - cbn [fst]. rewrite Hm, Hn.
        change (net (with_net ?w0 ?n0)) with n0.
        rewrite received_foldl_deliver; [done|].
        intros c Hc. apply write_error_known. by apply Hok.
      - intros c Hc. rewrite Hm in Hc. rewrite Hn. by apply Hok. }
    split; [exact Hall|].
    intros Hnd0 Hr x Hx. rewrite Hall.
    rewrite occurrences_NoDup; [done| |done].
    apply Hnd. by split.
Qed.

(** C7 (amended): when a session whose connection is registered receives a
    frame and every member's transport is healthy, the broadcast writes that
    frame to every registered connection, once per entry, the sender's own
    connection included: the set of connections a broadcast delivers to is
    the whole membership, and the sender gets its own message back. *)
Theorem Broadcast_includes_sender ws w m rest :
  wf_world w ->
  is_closed (net w) ws = false ->
  pending (net w) ws = m :: rest ->
  (forall c, c ∈ members w -> write_error (net w) c = None) ->
  exists w',
    readMessage_body slack ws w = (w', true)
    /\ members w' = members w
    /\ (forall x, received (net w') x
                  = received (net w) x
                    ++ replicate (occurrences x (members w)) m)
    /\ (ws ∈ members w ->
        exists k, received (net w') ws
                  = received (net w) ws ++ m :: replicate k m).
Proof.
  intros Hwf Hclosed Hpend Hok.
  unfold readMessage_body.
  destruct (ws_Receive_cases ws (net w))
    as [(e & _ & [Hc|Hp])|(m' & rest' & -> & _ & Hp & _ & _)];
    [congruence|congruence|].
  assert (m' = m) by congruence. subst m'.
  rewrite Broadcast_all_ok; [|done|].
  - eexists. split; [done|]. cbn [fst].
    assert (Hrecv : forall x,
              received (foldl (deliver m) (consume (net w) ws) (members w)) x
              = received (net w) x ++ replicate (occurrences x (members w)) m).
    { intros x. rewrite received_foldl_deliver.
      - by rewrite received_consume.
      - intros c Hc. apply write_error_known.
        rewrite write_error_consume. by apply Hok. }
    split; [done|]. split; [exact Hrecv|].
    intros Hin. apply occurrences_pos in Hin.
    exists (occurrences ws (members w) - 1).
    change (net (with_net ?w0 ?n0)) with n0. rewrite Hrecv.
    destruct (occurrences ws (members w)) as [|k]; [lia|].
    simpl. by rewrite Nat.sub_0_r.
  - intros c Hc. change (net (with_net ?w0 ?n0)) with n0.
    rewrite write_error_consume. by apply Hok.
Qed.


End PoolFacts.

(** ** Examples for the removal helper *)

Lemma removeConn_removes_first_occurrence_witness :
  wf_slice [[alice; bob; carol; nil_conn]] (mkSlice 0 0 3 4)
  /\ view (removeConn doubling [[alice; bob; carol; nil_conn]]
             (mkSlice 0 0 3 4) bob).1
          (removeConn doubling [[alice; bob; carol; nil_conn]]
             (mkSlice 0 0 3 4) bob).2
     = [alice; carol].
Proof.
  assert (Hwf : wf_slice [[alice; bob; carol; nil_conn]] (mkSlice 0 0 3 4))
    by (unfold wf_slice; simpl; lia).
  split; [exact Hwf|].
  exact (proj1 (removeConn_removes_first_occurrence doubling
                  [[alice; bob; carol; nil_conn]] (mkSlice 0 0 3 4) bob
                  _ _ Hwf eq_refl)).
Defined.

(** A slice that holds the same connection twice: one removal leaves it a
    member, and a second removal changes the slice again. *)
Lemma removeConn_twice_is_not_once :
  let h := [[alice; alice]] in
  let s := mkSlice 0 0 2 2 in
  let once := removeConn doubling h s alice in
  let twice := removeConn doubling once.1 once.2 alice in
  wf_slice h s
  /\ view once.1 once.2 = [alice]
  /\ view twice.1 twice.2 = []
  /\ view twice.1 twice.2 <> view once.1 once.2.
Proof.
  simpl. split; [unfold wf_slice; simpl; lia|].
  split; [reflexivity|]. split; [reflexivity|]. discriminate.
Qed.

(** ** Examples for the broadcast and the session handler *)

Lemma Broadcast_aborts_at_first_failure_witness :
  received (net (Broadcast doubling "ping" severed_room).1) carol = []
  /\ received (net (Broadcast doubling "ping" severed_room).1) alice
     = ["ping"%string]
  /\ members (Broadcast doubling "ping" severed_room).1 = [alice; carol].
Proof.
  assert (Hwf : wf_world severed_room) by (vm_compute; lia).
  assert (Hok : forall x, x ∈ [alice] ->
                          write_error (net severed_room) x = None).
  { intros x Hx. apply list_elem_of_singleton in Hx. by subst. }
  assert (Hbob : write_error (net severed_room) bob
                 = Some "broken pipe"%string) by reflexivity.
  destruct (Broadcast_aborts_at_first_failure doubling "ping" severed_room
              [alice] bob "broken pipe" [carol] Hwf eq_refl Hok Hbob)
    as (_ & Hm & _ & Hrecv & Hlate).
  split; [|split; [apply (Hrecv alice)|exact Hm]].
  apply (Hlate carol).
  - by apply list_elem_of_singleton.
  - intros Hin. apply list_elem_of_singleton in Hin. discriminate.
Defined.

Lemma register_appends_without_dedup_witness :
  wf_world (registered [alice] (net_of []))
  /\ members (execute_case doubling (ReqRegister bob)
                (registered [alice] (net_of [])))
     = [alice; bob].
Proof.
  assert (Hwf : wf_world (registered [alice] (net_of [])))
    by (vm_compute; lia).
  split; [exact Hwf|].
  exact (proj1 (register_appends_without_dedup doubling bob _ Hwf)).
Defined.

(** A connection registered while it is a member is held twice, and one
    broadcast then writes the message to it twice. *)
Lemma reregistered_connection_is_held_twice :
  wf_world solo_room
  /\ members solo_room = [alice]
  /\ members (execute_case doubling (ReqRegister alice) solo_room)
     = [alice; alice]
  /\ ~ NoDup (members (execute_case doubling (ReqRegister alice) solo_room))
  /\ received (net (Broadcast doubling "hi" double_room).1) alice
     = ["hi"%string; "hi"%string].
Proof.
  split; [vm_compute; lia|]. split; [reflexivity|].
  split; [reflexivity|]. split; [|reflexivity].
  intros Hnd. change (NoDup [alice; alice]) in Hnd.
  apply NoDup_cons in Hnd as [Hin _]. apply Hin. by left.
Qed.

Lemma Broadcast_includes_sender_witness :
  exists w',
    readMessage_body doubling alice hello_room = (w', true)
    /\ members w' = [alice; bob; carol]
    /\ received (net w') alice = ["hello"%string].
Proof.
  assert (Hwf : wf_world hello_room) by (vm_compute; lia).
  assert (Hok : forall c, c ∈ members hello_room ->
                          write_error (net hello_room) c = None).
  { intros c Hc. change (c ∈ [alice; bob; carol]) in Hc.
    repeat (apply elem_of_cons in Hc as [->|Hc]; [reflexivity|]).
    by apply elem_of_nil in Hc. }
  destruct (Broadcast_includes_sender doubling alice hello_room "hello" []
              Hwf eq_refl eq_refl Hok) as (w' & Hrun & Hm & Hrecv & _).
  exists w'. split; [exact Hrun|]. split; [exact Hm|].
  apply (Hrecv alice).
Defined.

(** Three clients in a public room: the frame Alice sends is written to Bob,
    to Carol and to Alice herself. *)
Lemma sender_receives_its_own_message :
  let w' := (readMessage_body doubling alice hello_room).1 in
  members hello_room = [alice; bob; carol]
  /\ received (net hello_room) alice = []
  /\ received (net w') bob = ["hello"%string]
  /\ received (net w') carol = ["hello"%string]
  /\ received (net w') alice = ["hello"%string]
  /\ received (net w') alice <> [].
Proof.
  vm_compute. split_and!; try reflexivity. discriminate.
Qed.


(** A refused handshake: the handler closes the transport and leaves the
    pool as it was. *)
Lemma wrong_password_is_refused :
  exists w',
    registerServer doubling private_room 1 carol lobby = Some w'
    /\ members w' = [alice]
    /\ heap w' = heap lobby
    /\ trace (net w') = trace (net lobby) ++ [EvClose carol]
    /\ is_closed (net w') carol = true.
Proof.
  eexists. split; [reflexivity|]. by split_and!.
Qed.

(** ** The interleaved server *)

Lemma Broadcast_iter_keeps_pool m conns i w :
  heap (Broadcast_iter m conns i w).1 = heap w
  /\ connections (Broadcast_iter m conns i w).1 = connections w.
Proof.
  unfold Broadcast_iter.
  by destruct (ws_Send (index (heap w) conns i) m (net w)) as [n' [err|]].
Qed.

(** Sessions never write the pool: only the owner's case does. *)
Lemma session_step_keeps_pool slack s ws m m' :
  step slack s (Session ws) m = Some m' ->
  heap (world m') = heap (world m)
  /\ connections (world m') = connections (world m).
Proof.
  unfold step, offer, goto.
  destruct (sessions m !! ws) as [pc|]; [|discriminate].
  destruct pc as [| | | |message conns i| | | |]; intros Hstep.
  5: { case_decide; [|by injection Hstep as <-].
       pose proof (Broadcast_iter_keeps_pool message conns i (world m)) as Hk.
       destruct (Broadcast_iter message conns i (world m)) as [w' [[c e]|]];
         by injection Hstep as <-. }
  all: repeat match type of Hstep with
              | context [match ?x with _ => _ end] => destruct x
              end;
    try discriminate; by injection Hstep as <-.
Qed.


Section SoloRuns.

(** One handler running while every other session stands still is one of
    the machine's executions: the functions [Broadcast], [readMessage] and
    [registerServer] compute what that execution reaches. *)

Variable slack : nat -> nat -> nat.
Variable s : ChatServer.
Variable ws : Conn.
Variable others : gmap Conn SessionPC.


















End SoloRuns.



(** C2 (the code, interleaved): every write of the membership is a step of
    the owner of the pool, but [Broadcast] reads the field [connections] and
    the array behind it in the session's own steps.  In the run below Carol's
    session is inside the loop of [Broadcast], about to read the array, while
    the owner holds Alice's removal; the owner then shifts the array in
    place, and Carol's loop, still ranging over the header it read before,
    writes the message to Carol twice and never to Bob, who stays a member
    with a healthy transport. *)
Theorem Broadcast_reads_pool_outside_owner :
  (forall slack s ws m m',
      step slack s (Session ws) m = Some m' ->
      heap (world m') = heap (world m)
      /\ connections (world m') = connections (world m))
  /\ exists mid final,
       run doubling public_room race_prefix race_start = Some mid
       /\ members (world mid) = [alice; bob; carol]
       /\ owner mid = OwCase (ReqUnregister alice)
       /\ sessions mid !! carol
          = Some (PcRange "m" (connections (world mid)) 1)
       /\ touches_pool Owner mid = true
       /\ touches_pool (Session carol) mid = true
       /\ run doubling public_room race_suffix mid = Some final
       /\ members (world final) = [bob; carol]
       /\ write_error (net (world final)) bob = None
       /\ received (net (world final)) alice = ["m"%string]
       /\ received (net (world final)) bob = []
       /\ received (net (world final)) carol = ["m"%string; "m"%string].
Proof.
  split; [apply session_step_keeps_pool|].
  destruct (run doubling public_room race_prefix race_start) as [mid|] eqn:Hmid;
    [|by vm_compute in Hmid].
  destruct (run doubling public_room race_suffix mid) as [final|] eqn:Hfin.
  - exists mid, final. vm_compute in Hmid. injection Hmid as <-.
    vm_compute in Hfin. injection Hfin as <-.
    split; [done|]. vm_compute. by split_and!.
  - vm_compute in Hmid. injection Hmid as <-. by vm_compute in Hfin.
Qed.

(** ** The client *)

Lemma write_error_after_sleep n ws p d :
  peers n !! ws = Some p ->
  write_error (time_Sleep d n) ws = peer_write_error (now n + d) p.
Proof.
  intros Hp. unfold write_error, time_Sleep. simpl. by rewrite Hp.
Qed.

Lemma peers_deliver_self m n ws p :
  peers n !! ws = Some p ->
  peers (deliver m n ws) !! ws = Some (with_outbox p (outbox p ++ [m])).
Proof.
  intros Hp. rewrite peers_deliver. case_decide; [|done]. by rewrite Hp.
Qed.

Lemma beats_S k ws :
  beats (S k) ws = [EvSleep (60 * Second); EvSend ws heartbeat] ++ beats k ws.
Proof. reflexivity. Qed.

(** While the transport is healthy the loop goes on: every round sleeps for
    sixty seconds and writes one heartbeat. *)
Lemma keepalive_loop_runs ws : forall fuel n p,
  peers n !! ws = Some p -> closed p = false -> fault p = None ->
  exists n',
    keepWebsocketAlive_loop fuel ws n = Running n'
    /\ trace n' = trace n ++ beats fuel ws
    /\ received n' ws = received n ws ++ replicate fuel heartbeat
    /\ now n' = (now n + Z.of_nat fuel * (60 * Second))%Z.
Proof.
  induction fuel as [|fuel IH]; intros n p Hp Hc Hf.
  - exists n. simpl. rewrite !app_nil_r. split_and!; [done..|lia].
  - cbn [keepWebsocketAlive_loop].
    set (n1 := time_Sleep (60 * Second) n).
    assert (Hw : write_error n1 ws = None).
    { unfold n1. rewrite (write_error_after_sleep _ _ p) by done.
      unfold peer_write_error. by rewrite Hc, Hf. }
    rewrite (ws_Send_ok _ _ _ Hw).
    assert (Hp1 : peers n1 !! ws = Some p) by done.
    destruct (IH (deliver heartbeat n1 ws) _ (peers_deliver_self _ _ _ _ Hp1))
      as (n' & Hrun & Ht & Hr & Hn); [done..|].
    exists n'. split; [done|]. split; [|split].
    + rewrite Ht, trace_deliver, beats_S. unfold n1. simpl.
      by rewrite <- !app_assoc.
    + rewrite Hr, received_deliver by eauto.
      case_decide; [|done]. rewrite <- app_assoc. done.
    + rewrite Hn, now_deliver. unfold n1. simpl. lia.
Qed.

(** A transport severed in the round after the [k]-th heartbeat ends the
    loop at the first write that fails. *)
Lemma keepalive_loop_fails ws t e : forall k fuel n p,
  peers n !! ws = Some p -> closed p = false -> fault p = Some (t, e) ->
  (0 < k -> (now n + Z.of_nat k * (60 * Second) < t)%Z) ->
  (t <= now n + (Z.of_nat k + 1) * (60 * Second))%Z ->
  k < fuel ->
  exists n',
    keepWebsocketAlive_loop fuel ws n = Returned n'
    /\ trace n' = trace n ++ beats k ws
                  ++ [EvSleep (60 * Second); EvSendErr ws e]
    /\ received n' ws = received n ws ++ replicate k heartbeat
    /\ now n' = (now n + (Z.of_nat k + 1) * (60 * Second))%Z.
Proof.
  induction k as [|k IH]; intros fuel n p Hp Hc Hf Hlo Hhi Hfuel;
    (destruct fuel as [|fuel]; [lia|]); cbn [keepWebsocketAlive_loop];
    set (n1 := time_Sleep (60 * Second) n).
  - assert (Hw : write_error n1 ws = Some e).
    { unfold n1. rewrite (write_error_after_sleep _ _ p) by done.
      unfold peer_write_error. rewrite Hc, Hf.
      destruct (Z.leb_spec t (now n + 60 * Second)); [done|lia]. }
    rewrite (ws_Send_err _ _ _ _ Hw). eexists. split; [done|].
    simpl. rewrite app_nil_r, <- app_assoc.
    split_and!; [done..|lia].
  - assert (Hw : write_error n1 ws = None).
    { unfold n1. rewrite (write_error_after_sleep _ _ p) by done.
      unfold peer_write_error. rewrite Hc, Hf.
      destruct (Z.leb_spec t (now n + 60 * Second)); [lia|done]. }
    rewrite (ws_Send_ok _ _ _ Hw).
    assert (Hp1 : peers n1 !! ws = Some p) by done.
    destruct (IH fuel (deliver heartbeat n1 ws) _
                (peers_deliver_self _ _ _ _ Hp1))
      as (n' & Hrun & Ht & Hr & Hn); [done|done| | |lia|].
    { rewrite now_deliver. unfold n1. simpl. lia. }
    { rewrite now_deliver. unfold n1. simpl. lia. }
    exists n'. split; [done|]. split; [|split].
    + rewrite Ht, trace_deliver, beats_S. unfold n1. simpl.
      by rewrite <- !app_assoc.
    + rewrite Hr, received_deliver by eauto.
      case_decide; [|done]. rewrite <- app_assoc. done.
    + rewrite Hn, now_deliver. unfold n1. simpl. lia.
Qed.

Lemma received_ws_Close ws n c : received (ws_Close ws n) c = received n c.
Proof.
  unfold ws_Close, received.
  destruct (peers n !! ws) as [p|] eqn:Hp; simpl; [|done].
  destruct (decide (c = ws)) as [->|Hc].
  - by rewrite lookup_insert_eq, Hp.
  - by rewrite lookup_insert_ne.
Qed.

(** C9: the keepalive task sleeps sixty seconds and then writes the payload
    "heartbeat", round after round, for as long as the writes succeed; at
    the first write that fails the loop ends and the transport is closed.
    On a healthy transport [fuel] rounds give [fuel] heartbeats, sixty
    seconds apart, and the task is still running; on a transport severed in
    round [k + 1] the task returns after [k] heartbeats, a failed write and
    the close. *)
Theorem keepalive_beats_until_send_fails ws n p :
  peers n !! ws = Some p ->
  closed p = false ->
  heartbeat = "heartbeat"%string
  /\ (60 * Second = 60000000000)%Z
  /\ (fault p = None ->
      forall fuel, exists n',
        keepWebsocketAlive fuel ws n = Running n'
        /\ trace n' = trace n ++ beats fuel ws
        /\ received n' ws = received n ws ++ replicate fuel heartbeat
        /\ now n' = (now n + Z.of_nat fuel * (60 * Second))%Z)
  /\ (forall t e k fuel,
        fault p = Some (t, e) ->
        (0 < k -> (now n + Z.of_nat k * (60 * Second) < t)%Z) ->
        (t <= now n + (Z.of_nat k + 1) * (60 * Second))%Z ->
        k < fuel ->
        exists n',
          keepWebsocketAlive fuel ws n = Returned n'
          /\ trace n' = trace n ++ beats k ws
                        ++ [EvSleep (60 * Second); EvSendErr ws e; EvClose ws]
          /\ received n' ws = received n ws ++ replicate k heartbeat
          /\ is_closed n' ws = true).
Proof.
  intros Hp Hc. split; [done|]. split; [done|]. split.
  - intros Hf fuel.
    destruct (keepalive_loop_runs ws fuel n p Hp Hc Hf)
      as (n' & Hrun & Hrest).
    exists n'. unfold keepWebsocketAlive. by rewrite Hrun.
  - intros t e k fuel Hf Hlo Hhi Hfuel.
    destruct (keepalive_loop_fails ws t e k fuel n p Hp Hc Hf Hlo Hhi Hfuel)
      as (n' & Hrun & Ht & Hr & _).
    exists (ws_Close ws n'). unfold keepWebsocketAlive. rewrite Hrun.
    split; [done|]. split; [|split].
    + rewrite trace_ws_Close, Ht. by rewrite <- !app_assoc.
    + by rewrite received_ws_Close.
    + apply is_closed_ws_Close.
Qed.

Lemma keepalive_beats_until_send_fails_witness :
  exists n',
    keepWebsocketAlive 5 dave (cut_at 150000000000) = Returned n'
    /\ trace n'
       = [EvSleep (60 * Second); EvSend dave heartbeat;
          EvSleep (60 * Second); EvSend dave heartbeat;
          EvSleep (60 * Second); EvSendErr dave "broken pipe"; EvClose dave]
    /\ received n' dave = [heartbeat; heartbeat]
    /\ is_closed n' dave = true.
Proof.
  destruct (keepalive_beats_until_send_fails dave (cut_at 150000000000) _
              eq_refl eq_refl) as (_ & _ & _ & Hfail).
  apply (Hfail 150000000000%Z "broken pipe"%string 2 5 eq_refl).
  - intros _. vm_compute. reflexivity.
  - vm_compute. discriminate.
  - lia.
Defined.

(** C8: on a client that has no connection ([Register] was not called, as
    after [NewChatClient]) [Send] and [Read] return the "not connected"
    error without touching the network, which is left as it was; on an
    established connection a failed write or read is reported with another
    text, that of the delivery failure followed by the transport's error;
    and after a [Register] that connected, a [Send] on a healthy transport
    goes through. *)
Theorem unregistered_client_is_not_connected c text n :
  conn c = nil_conn ->
  Send c text n = (n, Some errNotConnected)
  /\ Read c n = (n, (EmptyString, Some errNotConnected))
  /\ (forall id sc, conn (NewChatClient id sc) = nil_conn)
  /\ (forall c' text' n' e,
        conn c' <> nil_conn ->
        (Send c' text' n').2 = Some e ->
        e <> errNotConnected
        /\ exists err, write_error n' (conn c') = Some err
                       /\ e = errSendPrefix +:+ err)
  /\ (forall c' n' e,
        conn c' <> nil_conn ->
        (Read c' n').2.2 = Some e ->
        e <> errNotConnected /\ exists err, e = errReceivePrefix +:+ err)
  /\ (forall Dial pwd c' n',
        Register Dial c pwd n = Some (c', n') ->
        conn c' <> nil_conn ->
        write_error n' (conn c') = None ->
        (Send c' text n').2 = None
        /\ received (Send c' text n').1 (conn c')
           = received n' (conn c') ++ [text]).
Proof.
  intros Hnil. split_and!.
  - unfold Send. by case_decide.
  - unfold Read. by case_decide.
  - done.
  - intros c' text' n' e Hc He. unfold Send in He.
    case_decide; [done|].
    destruct (write_error n' (conn c')) as [err|] eqn:Hw.
    + rewrite (ws_Send_err _ _ _ _ Hw) in He. injection He as <-.
      split; [discriminate|]. by exists err.
    + by rewrite (ws_Send_ok _ _ _ Hw) in He.
  - intros c' n' e Hc He. unfold Read in He.
    case_decide; [done|].
    destruct (ws_Receive (conn c') n') as [n'' [message|err]];
      simpl in He; [done|].
    injection He as <-. split; [discriminate|]. by exists err.
  - intros Dial pwd c' n' _ Hc Hw. unfold Send.
    case_decide; [done|].
    rewrite (ws_Send_ok _ _ _ Hw). split; [done|]. simpl.
    rewrite received_deliver by by apply write_error_known.
    by case_decide.
Qed.

Lemma unregistered_client_is_not_connected_witness :
  Send local_client "hi" (net_of []) = (net_of [], Some errNotConnected)
  /\ (exists c' n',
        Register dial_dave local_client "s3cr3t" (net_of []) = Some (c', n')
        /\ (Send c' "hi" n').2 = None
        /\ received (Send c' "hi" n').1 dave = ["hi"%string]).
Proof.
  destruct (unregistered_client_is_not_connected local_client "hi" (net_of [])
              eq_refl) as (Hsend & _ & _ & _ & _ & Hretry).
  split; [exact Hsend|].
  destruct (Register dial_dave local_client "s3cr3t" (net_of []))
    as [[c' n']|] eqn:Hreg; [|by vm_compute in Hreg].
  exists c', n'. split; [done|].
  vm_compute in Hreg. injection Hreg as <- <-.
  apply (Hretry dial_dave "s3cr3t"%string); [reflexivity|discriminate|reflexivity].
Defined.

(** C10 (the code at a password with a reserved byte): [Register] puts the
    password into the query as it is, and the server's decoding splits at
    "&", reads "+" as a space and drops a pair with a malformed "%" escape.
    The password "a&b" reaches the handler as "a", "a+b" as "a b", "100%" as
    the empty password; a room whose secret is "a&b" refuses the client that
    registers with "a&b". *)
Theorem password_with_reserved_byte_is_not_preserved :
  handshake_password local_client "a&b" = "a"%string
  /\ handshake_password local_client "a+b" = "a b"%string
  /\ handshake_password local_client "100%" = EmptyString
  /\ handshake_password local_client "s3cr3t" = "s3cr3t"%string
  /\ admits (NewChatServer ":8080" "a&b")
       (handshake_password local_client "a&b") = false
  /\ ~ (forall password,
          handshake_password local_client password = password).
Proof.
  split_and!; try reflexivity.
  intros Hall. specialize (Hall "a&b"%string). vm_compute in Hall.
  discriminate.
Qed.

(** ** The query decoding *)

Lemma Cut_after_length sep s :
  String.length (url.Cut sep s).1.2 <= pred (String.length s).
Proof.
  induction s as [|c s IH]; simpl; [done|].
  destruct (Ascii.eqb c sep); simpl; [done|].
  destruct (url.Cut sep s) as [[before after] found]. simpl in *. lia.
Qed.

Lemma parseQuery_empty fuel m : url.parseQuery fuel m EmptyString = m.
Proof. by destruct fuel. Qed.

(** The fuel [Query] gives the loop is never what ends it. *)
Lemma parseQuery_fuel : forall fuel fuel' m query,
  String.length query <= fuel ->
  String.length query <= fuel' ->
  url.parseQuery fuel m query = url.parseQuery fuel' m query.
Proof.
  induction fuel as [|fuel IH]; intros fuel' m query Hf Hf'.
  - destruct query; [|simpl in Hf; lia]. by rewrite !parseQuery_empty.
  - destruct query as [|c query]; [by rewrite !parseQuery_empty|].
    destruct fuel' as [|fuel']; [simpl in Hf'; lia|].
    cbn [url.parseQuery].
    pose proof (Cut_after_length "&" (String c query)) as Hcut.
    destruct (url.Cut "&" (String c query)) as [[key query'] found].
    simpl in Hf, Hf', Hcut.
    assert (Hq : String.length query' <= fuel) by lia.
    assert (Hq' : String.length query' <= fuel') by lia.
    destruct (String.eqb (String c query) ""); [done|].
    destruct (url.Contains ";" key); [by apply IH|].
    destruct (String.eqb key ""); [by apply IH|].
    destruct (url.Cut "=" key) as [[key' value] found'].
    destruct (url.QueryUnescape key'); [|by apply IH].
    destruct (url.QueryUnescape value); by apply IH.
Qed.

Lemma unreserved_not_special c :
  url.unreserved c = true ->
  Ascii.eqb c "&" = false /\ Ascii.eqb c ";" = false
  /\ Ascii.eqb c "%" = false /\ Ascii.eqb c "+" = false.
Proof.
  destruct c as [[] [] [] [] [] [] [] []]; vm_compute; intros H;
    try discriminate H; done.
Qed.

Lemma Cut_unreserved s :
  url.all_unreserved s = true ->
  url.Cut "&" s = (s, EmptyString, false).
Proof.
  induction s as [|c s IH]; [done|]. simpl. intros Hs.
  apply andb_true_iff in Hs as [Hc Hs].
  destruct (unreserved_not_special c Hc) as (-> & _).
  by rewrite (IH Hs).
Qed.

Lemma Contains_unreserved s :
  url.all_unreserved s = true -> url.Contains ";" s = false.
Proof.
  induction s as [|c s IH]; [done|]. simpl. intros Hs.
  apply andb_true_iff in Hs as [Hc Hs].
  destruct (unreserved_not_special c Hc) as (_ & -> & _). by apply IH.
Qed.

Lemma QueryUnescape_unreserved s :
  url.all_unreserved s = true -> url.QueryUnescape s = Some s.
Proof.
  induction s as [|c s IH]; [done|]. intros Hs. simpl in Hs.
  apply andb_true_iff in Hs as [Hc Hs].
  destruct (unreserved_not_special c Hc) as (_ & _ & Hpct & Hplus).
  cbn [url.QueryUnescape]. rewrite Hpct, Hplus, (IH Hs). done.
Qed.

Lemma Query_pwd value :
  url.all_unreserved value = true ->
  url.Get
    (url.Query (String "p" (String "w" (String "d" (String "=" value)))))
    "pwd"
  = value.
Proof.
  intros Hs. unfold url.Query.
  cbn [String.length url.parseQuery String.eqb url.Cut].
  replace (Ascii.eqb "p" "&") with false by done.
  replace (Ascii.eqb "w" "&") with false by done.
  replace (Ascii.eqb "d" "&") with false by done.
  replace (Ascii.eqb "=" "&") with false by done.
  rewrite (Cut_unreserved value Hs).
  cbn [url.Contains].
  replace (Ascii.eqb "p" ";") with false by done.
  replace (Ascii.eqb "w" ";") with false by done.
  replace (Ascii.eqb "d" ";") with false by done.
  replace (Ascii.eqb "=" ";") with false by done.
  rewrite (Contains_unreserved value Hs).
  cbn [orb String.eqb url.Cut].
  replace (Ascii.eqb "p" "=") with false by done.
  replace (Ascii.eqb "w" "=") with false by done.
  replace (Ascii.eqb "d" "=") with false by done.
  replace (Ascii.eqb "=" "=") with true by done.
  replace (url.QueryUnescape "pwd") with (Some "pwd"%string) by done.
  rewrite (QueryUnescape_unreserved value Hs).
  unfold url.Get. by simplify_map_eq.
Qed.

(** A password made of unreserved bytes only reaches the handler as it was
    given to [Register]. *)
Lemma handshake_password_unreserved password :
  url.all_unreserved password = true ->
  handshake_password local_client password = password.
Proof.
  intros Hs. unfold handshake_password.
  change (url.request_RawQuery
            (url.URL_String (Register_url local_client password)))
    with (String "p" (String "w" (String "d" (String "=" password)))).
  by apply Query_pwd.
Qed.

(* ================================================================= *)
(** * Further properties *)

(** ** More on the transport *)

Lemma write_error_foldl_deliver m l : forall n c,
  write_error (foldl (deliver m) n l) c = write_error n c.
Proof.
  induction l as [|ws l IH]; intros n c; simpl; [done|].
  by rewrite IH, write_error_deliver.
Qed.

Lemma pending_foldl_deliver m l : forall n c,
  pending (foldl (deliver m) n l) c = pending n c.
Proof.
  induction l as [|ws l IH]; intros n c; simpl; [done|].
  by rewrite IH, pending_deliver.
Qed.

Lemma is_closed_foldl_deliver m l : forall n c,
  is_closed (foldl (deliver m) n l) c = is_closed n c.
Proof.
  induction l as [|ws l IH]; intros n c; simpl; [done|].
  by rewrite IH, is_closed_deliver.
Qed.

Lemma is_closed_consume n ws c : is_closed (consume n ws) c = is_closed n c.
Proof.
  unfold is_closed. destruct (decide (c = ws)) as [->|Hc].
  - unfold consume. destruct (peers n !! ws) as [p|] eqn:Hp; [|by rewrite Hp].
    destruct (inbox p); [by rewrite Hp|]. simpl.
    by rewrite lookup_insert_eq.
  - by rewrite peers_consume.
Qed.

(** Either every write of a list of targets succeeds, or there is a first
    target whose write fails. *)
Lemma first_write_failure n l :
  (forall c, c ∈ l -> write_error n c = None)
  \/ exists l1 c e l2,
       l = l1 ++ c :: l2
       /\ (forall x, x ∈ l1 -> write_error n x = None)
       /\ write_error n c = Some e.
Proof.
  induction l as [|y l IH].
  - left. intros c Hc. by apply elem_of_nil in Hc.
  - destruct (write_error n y) as [e|] eqn:Hy.
    + right. exists [], y, e, l. split; [done|]. split; [|done].
      intros x Hx. by apply elem_of_nil in Hx.
    + destruct IH as [Hok|(l1 & c & e & l2 & -> & Hok & Hc)].
      * left. intros c Hc. apply elem_of_cons in Hc as [->|Hc]; [done|].
        by apply Hok.
      * right. exists (y :: l1), c, e, l2. split; [done|]. split; [|done].
        intros x Hx. apply elem_of_cons in Hx as [->|Hx]; [done|].
        by apply Hok.
Qed.

Lemma concat_singletons (l : list string) :
  concat ((fun m => replicate 1 m) <$> l) = l.
Proof. induction l as [|m l IH]; simpl; [done|]. by f_equal. Qed.

Section PoolMore.

Variable slack : nat -> nat -> nat.

(** ** The removal helper and the memory it touches *)

(** The loop of [removeConn] when the first match stands at index
    [length l1]: the tail is moved one cell down inside the argument's array
    and the header returned is one element shorter. *)
Lemma removeConn_range_found h s x ns l1 l2 n : forall i,
  wf_slice h s -> i + n = len s ->
  view h s = l1 ++ x :: l2 -> x ∉ l1 -> i <= length l1 ->
  removeConn_range slack h s x ns i n
  = (<[ptr s := list_inserts (off s + length l1) l2 (cells h (ptr s))]> h,
     mkSlice (ptr s) (off s) (length l1 + length l2) (cap s)).
Proof.
  induction n as [|n IH]; intros i Hwf Hin Hv Hx Hi.
  - pose proof (view_length h s Hwf) as Hlen. rewrite Hv in Hlen.
    rewrite length_app in Hlen. simpl in Hlen. lia.
  - pose proof (view_lookup h s i Hwf ltac:(lia)) as Hidx.
    cbn [removeConn_range].
    destruct (decide (i = length l1)) as [->|Hne].
    + rewrite Hv, list_lookup_middle in Hidx by done.
      injection Hidx as <-. case_decide; [|done].
      assert (Hl2 : view h (slice_from s (length l1 + 1)) = l2).
      { rewrite view_slice_from, Hv. rewrite drop_app_ge by lia.
        by replace (length l1 + 1 - length l1) with 1 by lia. }
      rewrite Hl2. rewrite append_in_place; [done|].
      simpl. pose proof (view_length h s Hwf) as Hlen. rewrite Hv in Hlen.
      rewrite length_app in Hlen. simpl in Hlen. destruct Hwf. lia.
    + rewrite Hv, lookup_app_l in Hidx by lia.
      case_decide as Heq.
      * exfalso. apply Hx. rewrite <- Heq.
        eapply list_elem_of_lookup_2. exact Hidx.
      * apply IH; [done|lia|done|done|lia].
Qed.

Lemma remove_first_split x l :
  x ∈ l ->
  exists l1 l2,
    l = l1 ++ x :: l2 /\ (x ∉ l1) /\ remove_first x l = l1 ++ l2.
Proof.
  induction l as [|y l IH]; intros Hx.
  - by apply elem_of_nil in Hx.
  - simpl. case_decide as Hy.
    + subst y. exists [], l. split_and!; [done| |done]. apply not_elem_of_nil.
    + apply elem_of_cons in Hx as [->|Hx]; [congruence|].
      destruct (IH Hx) as (l1 & l2 & -> & Hn & ->).
      exists (y :: l1), l2. split_and!; [done| |done].
      apply not_elem_of_cons. split; [congruence|done].
Qed.

Lemma newSliceLen_pred (n : nat) :
  (if decide (n <= 0) then 0 else n - 1) = n - 1.
Proof. case_decide; lia. Qed.

(** What [removeConn] returns when [elem] is found, with the heap spelled
    out: one fresh array of nil pointers, and the argument's array with the
    tail moved down. *)
Lemma removeConn_found h s x l1 l2 :
  wf_slice h s -> view h s = l1 ++ x :: l2 -> x ∉ l1 ->
  ptr s < length h
  /\ removeConn slack h s x
     = (<[ptr s := list_inserts (off s + length l1) l2 (cells h (ptr s))]>
          (h ++ [replicate (len s - 1) nil_conn]),
        mkSlice (ptr s) (off s) (length l1 + length l2) (cap s)).
Proof.
  intros Hwf Hv Hx.
  assert (Hp : ptr s < length h).
  { destruct (decide (ptr s < length h)) as [|Hn]; [done|].
    unfold view in Hv. rewrite cells_outside in Hv by lia.
    rewrite drop_nil, take_nil in Hv. by destruct l1. }
  split; [done|].
  rewrite removeConn_unfold, newSliceLen_pred.
  destruct (view_app_heap h [replicate (len s - 1) nil_conn] s Hwf)
    as [Hv1 Hwf1].
  rewrite (removeConn_range_found _ _ _ _ l1 l2); [|done|lia| |done|lia].
  - by rewrite cells_app_old.
  - by rewrite Hv1.
Qed.

(** X3. [removeConn] works inside the array of the slice it is given: when
    the element is found the caller's old header no longer shows the old
    contents but the result followed by a stale copy of the former last
    element, while the returned header is one shorter over the same array. *)
Theorem removeConn_overwrites_argument h s x h' s' :
  wf_slice h s ->
  x ∈ view h s ->
  removeConn slack h s x = (h', s') ->
  exists v,
    last (view h s) = Some v
    /\ view h' s = remove_first x (view h s) ++ [v]
    /\ view h' s' = remove_first x (view h s)
    /\ s' = mkSlice (ptr s) (off s) (len s - 1) (cap s).
Proof.
  intros Hwf Hin Hrun.
  destruct (remove_first_split x _ Hin) as (l1 & l2 & Hv & Hx & Hrf).
  destruct (removeConn_found h s x l1 l2 Hwf Hv Hx) as [Hp Heq].
  pose proof (removeConn_spec slack h s x h' s' Hwf Hrun) as (Hres & _).
  rewrite Heq in Hrun. injection Hrun as <- <-.
  pose proof (view_length h s Hwf) as Hlen.
  rewrite Hv, length_app in Hlen. simpl in Hlen.
  destruct Hwf as [Hc Hl].
  set (k := length l1 + length l2).
  assert (Hlast : last (view h s) = Some (default x (last l2))).
  { rewrite Hv, last_app, last_cons. by destruct (last l2). }
  exists (default x (last l2)). split; [done|].
  split; [|split; [done|f_equal; lia]].
  rewrite Hrf. unfold view at 1.
  rewrite cells_insert_self by (rewrite length_app; simpl; lia).
  cbn [ptr off len].
  replace (len s) with (S k) by (unfold k; lia).
  assert (Hcell : cells h (ptr s) !! (off s + k) = Some (default x (last l2))).
  { rewrite last_lookup in Hlast. unfold view in Hlast.
    rewrite lookup_take_lt in Hlast by (rewrite length_take, length_drop; lia).
    rewrite lookup_drop in Hlast.
    rewrite length_take, length_drop in Hlast.
    replace (off s + pred (len s `min` (length (cells h (ptr s)) - off s)))
      with (off s + k) in Hlast by (unfold k; lia).
    done. }
  rewrite (take_S_r _ _ (default x (last l2))).
  - f_equal.
    unfold k. rewrite take_drop_inserts by lia. f_equal.
    unfold view in Hv.
    apply (f_equal (take (length l1))) in Hv.
    rewrite take_take, take_app_length in Hv.
    by rewrite Nat.min_l in Hv by lia.
  - rewrite lookup_drop, list_lookup_inserts_ge by (unfold k; lia). done.
Qed.

(** X4. Every call of [removeConn] allocates one array of [len - 1] nil
    pointers that the result never refers to, also when the element is
    absent; no other array than the argument's own is written, and the
    header returned keeps the argument's array, offset and capacity. *)
Theorem removeConn_allocates_and_frames h s x h' s' :
  wf_slice h s ->
  removeConn slack h s x = (h', s') ->
  length h' = S (length h)
  /\ cells h' (length h) = replicate (len s - 1) nil_conn
  /\ (forall q, q < length h -> q <> ptr s -> cells h' q = cells h q)
  /\ ptr s' = ptr s /\ off s' = off s /\ cap s' = cap s
  /\ (0 < cap s -> ptr s' <> length h).
Proof.
  intros Hwf Hrun.
  destruct (removeConn_spec slack h s x h' s' Hwf Hrun)
    as (_ & _ & Hlen & Hoth & Hp & Ho & Hc).
  split; [done|]. split; [|split; [done|]].
  - destruct (decide (x ∈ view h s)) as [Hin|Hin].
    + destruct (remove_first_split x _ Hin) as (l1 & l2 & Hv & Hx & _).
      destruct (removeConn_found h s x l1 l2 Hwf Hv Hx) as [Hps Heq].
      rewrite Heq in Hrun. injection Hrun as <- <-.
      rewrite cells_insert_other by lia. apply cells_app_fresh.
    + rewrite removeConn_unfold, newSliceLen_pred in Hrun.
      rewrite removeConn_range_absent in Hrun.
      * injection Hrun as <- <-. apply cells_app_fresh.
      * by apply view_app_heap.
      * lia.
      * rewrite drop_0. by rewrite (proj1 (view_app_heap _ _ _ Hwf)).
  - split; [done|]. split; [done|]. split; [done|].
    intros Hcap. rewrite Hp. destruct Hwf as [Hcells _].
    intros Heq. rewrite Heq, cells_outside in Hcells by lia.
    simpl in Hcells. lia.
Qed.

(** ** The owner's loop *)

Lemma execute_case_apply q w :
  wf_world w ->
  wf_world (execute_case slack q w)
  /\ members (execute_case slack q w) = apply_request (members w) q
  /\ net (execute_case slack q w) = emit (request_event q) (net w).
Proof.
  intros Hwf. destruct q as [r|r].
  - destruct (execute_case_register slack r w Hwf) as (? & ? & ?). done.
  - destruct (execute_case_unregister slack r w Hwf) as (? & ? & ?). done.
Qed.

(** X1. Whatever requests [execute] receives, in whatever order, the pool
    it keeps is a well-formed slice whose contents are the registrations
    appended and the unregistrations removed (first occurrence) in the order
    received; it records one event per request and touches no connection. *)
Theorem execute_folds_requests qs : forall w,
  wf_world w ->
  wf_world (execute slack qs w)
  /\ members (execute slack qs w) = foldl apply_request (members w) qs
  /\ trace (net (execute slack qs w))
     = trace (net w) ++ (request_event <$> qs)
  /\ peers (net (execute slack qs w)) = peers (net w).
Proof.
  induction qs as [|q qs IH]; intros w Hwf.
  - simpl. by rewrite app_nil_r.
  - destruct (execute_case_apply q w Hwf) as (Hw & Hm & Hn).
    destruct (IH _ Hw) as (Hw' & Hm' & Ht' & Hp').
    change (execute slack (q :: qs) w)
      with (execute slack qs (execute_case slack q w)).
    split; [done|]. split; [by rewrite Hm', Hm|]. split.
    + rewrite Ht', Hn. simpl. by rewrite <- app_assoc.
    + by rewrite Hp', Hn.
Qed.

Lemma remove_first_app_l x l k :
  x ∈ l -> remove_first x (l ++ k) = remove_first x l ++ k.
Proof.
  induction l as [|y l IH]; intros Hx.
  - by apply elem_of_nil in Hx.
  - simpl. case_decide; [done|].
    apply elem_of_cons in Hx as [->|Hx]; [congruence|]. by rewrite IH.
Qed.

(** X2. A registration followed by the unregistration of the same connection
    gives the membership back when the connection was not a member; when it
    already was one, the older entry is the one removed, so the connection
    stays a member and moves to the end of the pool. *)
Theorem register_then_unregister r w :
  wf_world w ->
  members (execute slack [ReqRegister r; ReqUnregister r] w)
  = remove_first r (members w ++ [r])
  /\ (r ∉ members w ->
      members (execute slack [ReqRegister r; ReqUnregister r] w) = members w)
  /\ (r ∈ members w ->
      members (execute slack [ReqRegister r; ReqUnregister r] w)
      = remove_first r (members w) ++ [r]).
Proof.
  intros Hwf.
  destruct (execute_case_apply (ReqRegister r) w Hwf) as (Hw1 & Hm1 & _).
  destruct (execute_case_apply (ReqUnregister r) _ Hw1) as (_ & Hm2 & _).
  change (execute slack [ReqRegister r; ReqUnregister r] w)
    with (execute_case slack (ReqUnregister r)
            (execute_case slack (ReqRegister r) w)).
  rewrite Hm2, Hm1. simpl. split; [done|]. split.
  - intros Hr. rewrite <- (app_nil_r (members w)) at 2.
    by apply remove_first_middle.
  - intros Hr. by apply remove_first_app_l.
Qed.

(** ** [GetPoolAddr] *)

Lemma GetPoolAddr_range_spec conns w n : forall i acc,
  wf_slice (heap w) conns -> i + n = len conns ->
  GetPoolAddr_range conns i n acc w
  = acc ++ (RemoteAddr (net w) <$> drop i (view (heap w) conns)).
Proof.
  induction n as [|n IH]; intros i acc Hwf Hin; simpl.
  - rewrite drop_ge by (rewrite view_length by done; lia).
    by rewrite app_nil_r.
  - assert (Hi : view (heap w) conns !! i = Some (index (heap w) conns i))
      by (apply view_lookup; [done|lia]).
    rewrite IH by (done || lia).
    rewrite (drop_S _ _ _ Hi). simpl. by rewrite <- app_assoc.
Qed.

(** X5. [GetPoolAddr] returns the remote address of every member, one per
    entry and in pool order, and nothing for an empty pool; a registration
    adds the new connection's address at the end. *)
Theorem GetPoolAddr_lists_members w :
  wf_world w ->
  GetPoolAddr w = (RemoteAddr (net w) <$> members w)
  /\ length (GetPoolAddr w) = length (members w)
  /\ (members w = [] -> GetPoolAddr w = [])
  /\ forall r,
       GetPoolAddr (execute_case slack (ReqRegister r) w)
       = GetPoolAddr w ++ [RemoteAddr (net w) r].
Proof.
  intros Hwf.
  assert (Hall : forall w0, wf_world w0 ->
            GetPoolAddr w0 = (RemoteAddr (net w0) <$> members w0)).
  { intros w0 Hw0. unfold GetPoolAddr.
    rewrite GetPoolAddr_range_spec by (done || lia).
    by rewrite drop_0. }
  split; [by apply Hall|]. split; [|split].
  - by rewrite Hall, length_fmap.
  - intros Hnil. by rewrite Hall, Hnil.
  - intros r. destruct (execute_case_register slack r w Hwf) as (Hm & Hw & Hn).
    rewrite (Hall _ Hw), Hall, Hm, Hn by done.
    by rewrite fmap_app.
Qed.

(** ** [Broadcast] *)

(** X6. Over a pool whose members all accept the write, [Broadcast] returns
    no error, leaves the pool's slice and heap as they were, and writes the
    message to the members in pool order, once per entry. *)
Theorem Broadcast_healthy_pool m w :
  wf_world w ->
  (forall c, c ∈ members w -> write_error (net w) c = None) ->
  exists w',
    Broadcast slack m w = (w', None)
    /\ heap w' = heap w /\ connections w' = connections w
    /\ trace (net w') = trace (net w) ++ ((fun c => EvSend c m) <$> members w)
    /\ forall x, received (net w') x
                 = received (net w) x
                   ++ replicate (occurrences x (members w)) m.
Proof.
  intros Hwf Hok. rewrite Broadcast_all_ok by done.
  eexists. split; [done|]. cbn [heap connections net with_net].
  split; [done|]. split; [done|]. split.
  - apply trace_foldl_deliver.
  - intros x. apply received_foldl_deliver.
    intros c Hc. apply write_error_known. by apply Hok.
Qed.

(** X8. [Broadcast] returns no error exactly when every member accepts the
    write; the error it returns otherwise is that of the first member, in
    pool order, whose write fails. *)
Theorem Broadcast_error_iff m w :
  wf_world w ->
  ((Broadcast slack m w).2 = None
   <-> forall c, c ∈ members w -> write_error (net w) c = None)
  /\ forall e,
       (Broadcast slack m w).2 = Some e ->
       exists l1 c l2,
         members w = l1 ++ c :: l2
         /\ (forall x, x ∈ l1 -> write_error (net w) x = None)
         /\ write_error (net w) c = Some e.
Proof.
  intros Hwf.
  destruct (first_write_failure (net w) (members w))
    as [Hok|(l1 & c & e & l2 & Hm & Hok & Hc)].
  - rewrite Broadcast_all_ok by done. split; [done|]. intros e He.
    discriminate He.
  - rewrite (Broadcast_first_failure slack m w l1 c e l2) by done.
    cbn [snd]. split.
    + split; [discriminate|]. intros Hall.
      rewrite Hall in Hc; [discriminate|].
      rewrite Hm. apply elem_of_app. right. by left.
    + intros e' [= <-]. by exists l1, c, l2.
Qed.

(** X7. [Broadcast] never closes a transport and never receives from one,
    whatever happens to the writes: the member it evicts stays open and
    keeps its pending frames.  It never adds a member and removes at most
    one, and the pool stays well-formed. *)
Theorem Broadcast_closes_nothing m w :
  wf_world w ->
  wf_world (Broadcast slack m w).1
  /\ (forall c, is_closed (net (Broadcast slack m w).1) c
                = is_closed (net w) c)
  /\ (forall c, pending (net (Broadcast slack m w).1) c = pending (net w) c)
  /\ (members (Broadcast slack m w).1 = members w
      \/ exists c, c ∈ members w
                   /\ write_error (net w) c <> None
                   /\ members (Broadcast slack m w).1
                      = remove_first c (members w))
  /\ length (members w) <= S (length (members (Broadcast slack m w).1)).
Proof.
  intros Hwf.
  destruct (Broadcast_invariant slack m w Hwf) as (Hw & (Hp & Hc & _) & _).
  split; [done|]. split; [done|]. split; [done|].
  destruct (first_write_failure (net w) (members w))
    as [Hok|(l1 & c & e & l2 & Hm & Hok & Hce)].
  - rewrite Broadcast_all_ok by done. cbn [fst]. split; [by left|].
    change (members (with_net w ?n0)) with (members w). lia.
  - assert (Hin : c ∈ members w).
    { rewrite Hm. apply elem_of_app. right. by left. }
    rewrite (Broadcast_first_failure slack m w l1 c e l2) by done.
    cbn [fst].
    set (n1 := emit (EvSendErr c e) (foldl (deliver m) (net w) l1)).
    assert (Hwf' : wf_world (with_net w n1)) by done.
    destruct (execute_case_unregister slack c _ Hwf') as (Hmem & _).
    change (members (with_net w n1)) with (members w) in Hmem.
    split.
    + right. exists c. split; [done|]. split; [congruence|done].
    + rewrite Hmem. pose proof (remove_first_length c _ Hin). lia.
Qed.

(** ** The session as a whole *)

(** The receive loop over a healthy pool, frame by frame. *)
Lemma readMessage_relays ws : forall frames fuel w,
  wf_world w ->
  is_closed (net w) ws = false ->
  pending (net w) ws = frames ->
  (forall c, c ∈ members w -> write_error (net w) c = None) ->
  length frames < fuel ->
  exists w',
    readMessage slack fuel ws w = Some w'
    /\ members w' = remove_first ws (members w)
    /\ (forall x,
          received (net w') x
          = received (net w) x
            ++ concat ((fun m => replicate (occurrences x (members w)) m)
                         <$> frames))
    /\ (NoDup (members w) ->
        forall x, x ∈ members w ->
          received (net w') x = received (net w) x ++ frames)
    /\ pending (net w') ws = []
    /\ is_closed (net w') ws = false.
Proof.
  assert (Hnodup : forall frames (w w' : World),
    (forall x,
       received (net w') x
       = received (net w) x
         ++ concat ((fun m => replicate (occurrences x (members w)) m)
                      <$> frames)) ->
    NoDup (members w) ->
    forall x, x ∈ members w ->
      received (net w') x = received (net w) x ++ frames).
  { intros frames w w' Hall Hnd x Hx. rewrite Hall.
    rewrite (occurrences_NoDup x _ Hnd Hx). by rewrite concat_singletons. }
  induction frames as [|m rest IH]; intros fuel w Hwf Hopen Hpend Hok Hfuel;
    (destruct fuel as [|fuel]; [simpl in Hfuel; lia|]);
    cbn [readMessage]; unfold readMessage_body;
    destruct (ws_Receive_cases ws (net w))
      as [(e & -> & [Hc|Hp])|(m' & rest' & -> & _ & Hp & Hp' & _)];
    try congruence.
  - set (w1 := with_net w (emit (EvRecvErr ws e) (net w))).
    assert (Hw1 : wf_world w1) by done.
    destruct (execute_case_unregister slack ws w1 Hw1) as (Hm & _ & Hn).
    eexists. split; [done|]. split; [exact Hm|].
    assert (Hall : forall x,
              received (net (execute_case slack (ReqUnregister ws) w1)) x
              = received (net w) x ++ concat
                  ((fun m => replicate (occurrences x (members w)) m) <$> [])).
    { intros x. rewrite Hn. simpl. by rewrite app_nil_r. }
    split; [exact Hall|]. split; [by apply (Hnodup [])|].
    rewrite Hn. done.
  - assert (m' = m /\ rest' = rest) as [-> ->] by (split; congruence).
    set (n1 := consume (net w) ws) in *.
    assert (Hok1 : forall c, c ∈ members (with_net w n1) ->
                             write_error (net (with_net w n1)) c = None).
    { intros c Hc. cbn [net with_net]. unfold n1.
      rewrite write_error_consume. by apply Hok. }
    rewrite (Broadcast_all_ok slack m (with_net w n1)) by done.
    cbn [fst net with_net].
    change (members (with_net w n1)) with (members w).
    set (w2 := with_net w (foldl (deliver m) n1 (members w))).
    destruct (IH fuel w2) as (w' & Hrun & Hm & Hrecv & _ & Hpe & Hcl).
    + done.
    + unfold w2. cbn [net with_net].
      rewrite is_closed_foldl_deliver. unfold n1.
      by rewrite is_closed_consume.
    + unfold w2. cbn [net with_net]. by rewrite pending_foldl_deliver.
    + intros c Hc. unfold w2. cbn [net with_net].
      rewrite write_error_foldl_deliver. unfold n1.
      rewrite write_error_consume. by apply Hok.
    + simpl in Hfuel. lia.
    + exists w'. split; [done|]. split; [exact Hm|].
      assert (Hall : forall x,
                received (net w') x
                = received (net w) x ++ concat
                    ((fun m0 => replicate (occurrences x (members w)) m0)
                       <$> m :: rest)).
      { intros x. rewrite Hrecv. unfold w2. cbn [net with_net].
        change (members (with_net w ?n0)) with (members w).
        rewrite received_foldl_deliver.
        - unfold n1. rewrite received_consume. simpl.
          by rewrite <- !app_assoc.
        - intros c Hc. apply write_error_known. unfold n1.
          rewrite write_error_consume. by apply Hok. }
      split; [exact Hall|]. split; [by apply (Hnodup (m :: rest))|done].
Qed.

(** X9. A session whose connection is open relays every frame it receives,
    in the order received, to the members of a healthy pool, once per entry
    a member has, and when the frames are exhausted it unregisters its
    connection; with more fuel than frames the loop returns.  In a pool
    without duplicates every member has then been written exactly the
    session's frames, in order. *)
Theorem readMessage_relays_frames ws : forall frames fuel w,
  wf_world w ->
  is_closed (net w) ws = false ->
  pending (net w) ws = frames ->
  (forall c, c ∈ members w -> write_error (net w) c = None) ->
  length frames < fuel ->
  exists w',
    readMessage slack fuel ws w = Some w'
    /\ members w' = remove_first ws (members w)
    /\ (forall x,
          received (net w') x
          = received (net w) x
            ++ concat ((fun m => replicate (occurrences x (members w)) m)
                         <$> frames))
    /\ (NoDup (members w) ->
        forall x, x ∈ members w ->
          received (net w') x = received (net w) x ++ frames)
    /\ pending (net w') ws = []
    /\ is_closed (net w') ws = false.
Proof. exact (readMessage_relays ws). Qed.


End PoolMore.

(** ** Admission under every interleaving *)

Lemma RequestQuery_ws_Send a m n c :
  RequestQuery (ws_Send a m n).1 c = RequestQuery n c.
Proof.
  destruct (ws_Send_cases a m n) as [->|[e ->]]; [|done].
  unfold RequestQuery. cbn [fst]. rewrite peers_deliver.
  case_decide; [|done]. by destruct (peers n !! c).
Qed.

Lemma RequestQuery_consume n a c :
  RequestQuery (consume n a) c = RequestQuery n c.
Proof.
  unfold RequestQuery. destruct (decide (c = a)) as [->|Hc].
  - unfold consume. destruct (peers n !! a) as [p|] eqn:Hp; [|by rewrite Hp].
    destruct (inbox p); [by rewrite Hp|]. simpl.
    by rewrite lookup_insert_eq.
  - by rewrite peers_consume.
Qed.

Lemma RequestQuery_ws_Receive a n c :
  RequestQuery (ws_Receive a n).1 c = RequestQuery n c.
Proof.
  destruct (ws_Receive_cases a n) as [(e & -> & _)|(m & rest & -> & _)];
    [done|].
  apply RequestQuery_consume.
Qed.

Lemma peers_ws_Close a n c :
  peers (ws_Close a n) !! c
  = if decide (a = c) then (fun p => with_closed p true) <$> peers n !! c
    else peers n !! c.
Proof.
  unfold ws_Close. simpl. case_decide as Hc.
  - subst c. destruct (peers n !! a) as [p|] eqn:Hp; simpl.
    + by rewrite lookup_insert_eq.
    + by rewrite Hp.
  - destruct (peers n !! a) as [p|]; simpl; [|done].
    by rewrite lookup_insert_ne.
Qed.

Lemma RequestQuery_ws_Close a n c :
  RequestQuery (ws_Close a n) c = RequestQuery n c.
Proof.
  unfold RequestQuery. rewrite peers_ws_Close.
  case_decide; [|done]. by destruct (peers n !! c).
Qed.

Lemma pending_ws_Close a n c : pending (ws_Close a n) c = pending n c.
Proof.
  unfold pending. rewrite peers_ws_Close.
  case_decide; [|done]. by destruct (peers n !! c).
Qed.

Lemma pending_ws_Send a m n c : pending (ws_Send a m n).1 c = pending n c.
Proof. apply (writes_only_ws_Send a m n). Qed.

Lemma pending_ws_Receive a n c :
  c <> a -> pending (ws_Receive a n).1 c = pending n c.
Proof.
  intros Hc.
  destruct (ws_Receive_cases a n) as [(e & -> & _)|(m & rest & -> & _)];
    [done|].
  unfold pending. cbn [fst]. by rewrite peers_consume.
Qed.

Lemma supplied_password_stable n n' ws :
  RequestQuery n' ws = RequestQuery n ws ->
  supplied_password n' ws = supplied_password n ws.
Proof.
  unfold supplied_password, RequestQuery. by intros ->.
Qed.

Lemma remove_first_elem_of x r l : x ∈ remove_first r l -> x ∈ l.
Proof.
  induction l as [|y l IH]; simpl; [done|].
  case_decide.
  - intros Hx. by right.
  - intros Hx. apply elem_of_cons in Hx as [->|Hx]; [by left|].
    right. by apply IH.
Qed.

(** What a step of session [a] can change besides its own program counter:
    nothing of the pool, no handshake query, no other connection's pending
    frames; and what it hands to the owner is its own registration or an
    unregistration. *)
Lemma session_step_effects slack s a m m' :
  step slack s (Session a) m = Some m' ->
  heap (world m') = heap (world m)
  /\ connections (world m') = connections (world m)
  /\ (forall c, RequestQuery (net (world m')) c
                = RequestQuery (net (world m)) c)
  /\ (forall c, c <> a ->
        pending (net (world m')) c = pending (net (world m)) c)
  /\ (forall b, b <> a -> sessions m' !! b = sessions m !! b)
  /\ (owner m' = owner m
      \/ owner m' = OwCase (ReqRegister a)
      \/ exists c, owner m' = OwCase (ReqUnregister c)).
Proof.
  intros Hstep.
  destruct (session_step_keeps_pool slack s a m m' Hstep) as [Hh Hc].
  split; [done|]. split; [done|].
  unfold step in Hstep.
  destruct (sessions m !! a) as [pc|] eqn:Hpc; [|discriminate].
  destruct pc as [| | |message|message conns i|c| | |].
  - destruct (admits s (supplied_password (net (world m)) a));
      injection Hstep as <-; simpl;
      (split_and!; [done|done|by intros b Hb; rewrite lookup_insert_ne|by left]).
  - unfold offer in Hstep. destruct (owner m); [|discriminate].
    injection Hstep as <-. simpl.
    split_and!; [done|done|by intros b Hb; rewrite lookup_insert_ne|].
    right. by left.
  - pose proof (RequestQuery_ws_Receive a (net (world m))) as Hq.
    pose proof (fun c => pending_ws_Receive a (net (world m)) c) as Hp.
    destruct (ws_Receive a (net (world m))) as [n' [message|err]];
      injection Hstep as <-; simpl in *;
      (split_and!; [done|done|by intros b Hb; rewrite lookup_insert_ne|by left]).
  - injection Hstep as <-. simpl.
    split_and!; [done|done|by intros b Hb; rewrite lookup_insert_ne|by left].
  - case_decide.
    + unfold Broadcast_iter in Hstep.
      pose proof (RequestQuery_ws_Send (index (heap (world m)) conns i)
                    message (net (world m))) as Hq.
      pose proof (pending_ws_Send (index (heap (world m)) conns i)
                    message (net (world m))) as Hp.
      destruct (ws_Send (index (heap (world m)) conns i) message
                  (net (world m))) as [n' [err|]];
        injection Hstep as <-; simpl in *;
        (split_and!;
           [done|by intros c Hc'; apply Hp
           |by intros b Hb; rewrite lookup_insert_ne|by left]).
    + injection Hstep as <-. simpl.
      split_and!; [done|done|by intros b Hb; rewrite lookup_insert_ne|by left].
  - unfold offer in Hstep. destruct (owner m); [|discriminate].
    injection Hstep as <-. simpl.
    split_and!; [done|done|by intros b Hb; rewrite lookup_insert_ne|].
    right. right. by exists c.
  - unfold offer in Hstep. destruct (owner m); [|discriminate].
    injection Hstep as <-. simpl.
    split_and!; [done|done|by intros b Hb; rewrite lookup_insert_ne|].
    right. right. by exists a.
  - injection Hstep as <-. simpl.
    split_and!; [apply RequestQuery_ws_Close
                |by intros c Hc'; apply pending_ws_Close
                |by intros b Hb; rewrite lookup_insert_ne|by left].
  - discriminate.
Qed.

Lemma kept_out_step slack s ws a m m' :
  kept_out s ws m ->
  step slack s a m = Some m' ->
  kept_out s ws m'
  /\ pending (net (world m')) ws = pending (net (world m)) ws.
Proof.
  intros (Hwf & Hout & Hown & Hadm & Hpc) Hstep.
  destruct a as [|a].
  - unfold step in Hstep. destruct (owner m) as [|q] eqn:Hq; [discriminate|].
    injection Hstep as <-. unfold kept_out. cbn [world owner sessions].
    destruct (execute_case_apply slack q (world m) Hwf) as (Hw & Hm & Hn).
    split; [|by rewrite Hn].
    split; [done|]. split; [|split; [done|split; [|done]]].
    + rewrite Hm. destruct q as [r|r]; simpl.
      * intros Hin. apply elem_of_app in Hin as [Hin|Hin]; [done|].
        apply list_elem_of_singleton in Hin. congruence.
      * intros Hin. by apply remove_first_elem_of in Hin.
    + by rewrite Hn.
  - destruct (session_step_effects slack s a m m' Hstep)
      as (Hh & Hc & Hquery & Hpend & Hothers & Howner).
    assert (Hmem : members (world m') = members (world m)).
    { unfold members. by rewrite Hh, Hc. }
    assert (Hw : wf_world (world m')).
    { unfold wf_world. by rewrite Hh, Hc. }
    assert (Hadm' : admits s (supplied_password (net (world m')) ws) = false).
    { by rewrite (supplied_password_stable (net (world m)) _ ws). }
    destruct (decide (a = ws)) as [->|Hne].
    + unfold step in Hstep.
      destruct Hpc as [Hpc|[Hpc|Hpc]]; rewrite Hpc in Hstep.
      * rewrite Hadm in Hstep. injection Hstep as <-.
        split; [|done]. unfold kept_out. cbn [world owner sessions goto].
        split_and!; [done..|]. right. left. by rewrite lookup_insert_eq.
      * injection Hstep as <-.
        split; [|apply pending_ws_Close].
        unfold kept_out. cbn [world owner sessions goto].
        split_and!; [done|done|done| |].
        -- rewrite (supplied_password_stable (net (world m)) _ ws); [done|].
           apply RequestQuery_ws_Close.
        -- right. right. by rewrite lookup_insert_eq.
      * discriminate.
    + split; [|by apply Hpend].
      split; [done|]. split; [by rewrite Hmem|].
      split; [|split; [done|by rewrite Hothers]].
      destruct Howner as [->|[->|[c ->]]]; [done|congruence|discriminate].
Qed.

(** X11. A connection whose password the server refuses never becomes a
    member, under any interleaving of the handlers and the owner: from a
    state where it is not a member and its handler is at the password test,
    every schedule leaves it outside the pool, never starts a registration
    of it, never reads a frame from it, and leaves its handler at the test,
    at the deferred close or returned. *)
Theorem refused_connection_never_joins slack s ws sched : forall m m',
  wf_world (world m) ->
  ws ∉ members (world m) ->
  owner m <> OwCase (ReqRegister ws) ->
  sessions m !! ws = Some PcCheck ->
  admits s (supplied_password (net (world m)) ws) = false ->
  run slack s sched m = Some m' ->
  (ws ∉ members (world m'))
  /\ owner m' <> OwCase (ReqRegister ws)
  /\ pending (net (world m')) ws = pending (net (world m)) ws
  /\ (sessions m' !! ws = Some PcCheck
      \/ sessions m' !! ws = Some PcClose
      \/ sessions m' !! ws = Some PcDone).
Proof.
  assert (Hinv : forall sched m m',
            kept_out s ws m -> run slack s sched m = Some m' ->
            kept_out s ws m'
            /\ pending (net (world m')) ws = pending (net (world m)) ws).
  { clear sched. induction sched as [|a sched IH]; intros m m' Hk Hrun.
    - injection Hrun as <-. done.
    - cbn [run] in Hrun.
      destruct (step slack s a m) as [m1|] eqn:Hstep; [|discriminate].
      destruct (kept_out_step slack s ws a m m1 Hk Hstep) as [Hk1 Hp1].
      destruct (IH m1 m' Hk1 Hrun) as [Hk' Hp']. split; [done|].
      by rewrite Hp', Hp1. }
  intros m m' Hwf Hout Hown Hpc Hadm Hrun.
  destruct (Hinv sched m m') as [(_ & Hout' & Hown' & _ & Hpc') Hp'].
  - unfold kept_out. split_and!; [done..|]. by left.
  - done.
  - done.
Qed.

Lemma refused_connection_never_joins_witness :
  exists m',
    run doubling private_room
      [Session dave; Session carol; Session dave; Owner; Session carol;
       Session dave; Session dave; Session dave]
      lobby_start = Some m'
    /\ (carol ∉ members (world m'))
    /\ members (world m') = [alice; dave].
Proof.
  destruct (run doubling private_room
              [Session dave; Session carol; Session dave; Owner;
               Session carol; Session dave; Session dave; Session dave]
              lobby_start) as [m'|] eqn:Hrun; [|by vm_compute in Hrun].
  exists m'. split; [done|]. split.
  - assert (Hwf : wf_world (world lobby_start)) by (vm_compute; lia).
    assert (Hout : carol ∉ members (world lobby_start)).
    { change (carol ∉ [alice]). intros Hin.
      apply list_elem_of_singleton in Hin. discriminate. }
    assert (Hown : owner lobby_start <> OwCase (ReqRegister carol))
      by discriminate.
    exact (proj1 (refused_connection_never_joins doubling private_room carol
                    _ lobby_start m' Hwf Hout Hown eq_refl eq_refl Hrun)).
  - vm_compute in Hrun. by injection Hrun as <-.
Defined.

(** ** The client's wrappers *)

(** X12. [Send] reports success exactly when the client has a connection
    and the transport accepts the write, and then the network is the one
    with this single frame written; when it reports an error nothing has
    been written to any connection.  It never receives and never closes. *)
Theorem Send_outcome c message n :
  ((Send c message n).2 = None
   <-> conn c <> nil_conn /\ write_error n (conn c) = None)
  /\ ((Send c message n).2 = None ->
      (Send c message n).1 = deliver message n (conn c))
  /\ ((Send c message n).2 <> None ->
      forall x, received (Send c message n).1 x = received n x)
  /\ (forall x, pending (Send c message n).1 x = pending n x)
  /\ (forall x, is_closed (Send c message n).1 x = is_closed n x).
Proof.
  unfold Send. case_decide as Hnil.
  - cbn [fst snd]. split_and!; try done. split; [done|]. by intros [? _].
  - destruct (write_error n (conn c)) as [e|] eqn:Hw.
    + rewrite (ws_Send_err _ _ _ _ Hw). cbn [fst snd].
      split_and!; try done. split; [done|]. intros [_ ?]. done.
    + rewrite (ws_Send_ok _ _ _ Hw). cbn [fst snd].
      split_and!; try done.
      * intros x. apply pending_deliver.
      * intros x. apply is_closed_deliver.
Qed.

Lemma Read_frame c n m rest :
  conn c <> nil_conn ->
  is_closed n (conn c) = false ->
  pending n (conn c) = m :: rest ->
  Read c n = (consume n (conn c), (m, None)).
Proof.
  intros Hnil Hopen Hpend. unfold Read. case_decide; [done|].
  destruct (ws_Receive_cases (conn c) n)
    as [(e & _ & [Hc|Hp])|(m' & rest' & -> & _ & Hp & _)];
    [congruence|congruence|].
  by assert (m' = m) as -> by congruence.
Qed.

(** X13. On an open connection [Read] hands out the pending frames in the
    order they arrived, each once and with no error: [k] calls return the
    first [k] frames and leave the others pending; nothing is written.  Once
    no frame is left the next call returns an empty message and the receive
    error under the client's prefix. *)
Theorem Read_times_fifo c : forall k n frames,
  conn c <> nil_conn ->
  is_closed n (conn c) = false ->
  pending n (conn c) = frames ->
  k <= length frames ->
  exists n',
    Read_times k c n = ((fun m => (m, None)) <$> take k frames, n')
    /\ pending n' (conn c) = drop k frames
    /\ is_closed n' (conn c) = false
    /\ (forall x, received n' x = received n x)
    /\ (k = length frames ->
        Read c n'
        = (emit (EvRecvErr (conn c) errEOF) n',
           (EmptyString, Some (errReceivePrefix +:+ errEOF)))).
Proof.
  induction k as [|k IH]; intros n frames Hnil Hopen Hpend Hk.
  - exists n. split; [done|]. split; [done|]. split; [done|]. split; [done|].
    intros Hlen. destruct frames; [|discriminate].
    unfold Read. case_decide; [done|].
    unfold ws_Receive. unfold is_closed, pending in *.
    destruct (peers n !! conn c) as [p|]; simpl in *; [|discriminate].
    by rewrite Hopen, Hpend.
  - destruct frames as [|m rest]; [simpl in Hk; lia|].
    cbn [Read_times]. rewrite (Read_frame c n m rest) by done.
    destruct (ws_Receive_cases (conn c) n)
      as [(e & _ & [Hc|Hp])|(m' & rest' & _ & _ & Hp & Hp' & _)];
      [congruence|congruence|].
    assert (rest' = rest) as -> by congruence.
    destruct (IH (consume n (conn c)) rest) as (n' & -> & Hpe & Hcl & Hre & Hend).
    + done.
    + by rewrite is_closed_consume.
    + done.
    + simpl in Hk. lia.
    + exists n'. split; [done|]. split; [done|]. split; [done|]. split.
      * intros x. by rewrite Hre, received_consume.
      * intros Hlen. apply Hend. simpl in Hlen. lia.
Qed.

Lemma Read_times_fifo_witness :
  exists n',
    Read_times 2 (mkChatClient "dave" dave (chatServer local_client))
      (net_of [(dave, client_peer "127.0.0.1:8080" "" ["a"; "b"; "c"]%string)])
    = ([("a"%string, None); ("b"%string, None)], n')
    /\ pending n' dave = ["c"%string].
Proof.
  destruct (Read_times_fifo (mkChatClient "dave" dave (chatServer local_client))
              2 (net_of [(dave, client_peer "127.0.0.1:8080" ""
                                  ["a"; "b"; "c"]%string)])
              ["a"; "b"; "c"]%string)
    as (n' & Hrun & Hp & _); [discriminate|reflexivity|reflexivity|simpl; lia|].
  by exists n'.
Defined.

(** ** The keepalive task *)

Lemma keepalive_loop_frame ws : forall fuel n,
  (forall c, c <> ws ->
     peers (outcome_net (keepWebsocketAlive_loop fuel ws n)) !! c
     = peers n !! c)
  /\ pending (outcome_net (keepWebsocketAlive_loop fuel ws n)) ws
     = pending n ws
  /\ is_closed (outcome_net (keepWebsocketAlive_loop fuel ws n)) ws
     = is_closed n ws
  /\ exists k,
       k <= fuel
       /\ received (outcome_net (keepWebsocketAlive_loop fuel ws n)) ws
          = received n ws ++ replicate k heartbeat.
Proof.
  induction fuel as [|fuel IH]; intros n.
  - simpl. split_and!; [done..|]. exists 0. by rewrite app_nil_r.
  - cbn [keepWebsocketAlive_loop].
    set (n1 := time_Sleep (60 * Second) n).
    destruct (write_error n1 ws) as [e|] eqn:Hw.
    + rewrite (ws_Send_err _ _ _ _ Hw). simpl.
      split_and!; [done..|]. exists 0. split; [lia|]. by rewrite app_nil_r.
    + rewrite (ws_Send_ok _ _ _ Hw).
      destruct (IH (deliver heartbeat n1 ws)) as (Hp & Hpe & Hcl & k & Hk & Hr).
      split_and!.
      * intros c Hc. rewrite Hp by done. rewrite peers_deliver.
        by case_decide.
      * by rewrite Hpe, pending_deliver.
      * by rewrite Hcl, is_closed_deliver.
      * exists (S k). split; [lia|]. rewrite Hr.
        rewrite received_deliver by by apply write_error_known.
        case_decide; [|done]. by rewrite <- app_assoc.
Qed.

(** X14. The keepalive task acts on its own connection only, and only by
    writing: whatever the fuel and the state of the network, every other
    connection is left exactly as it was, no pending frame of its own
    connection is consumed, and all it has written is the payload
    "heartbeat", at most once per round. *)
Theorem keepalive_only_writes_heartbeats fuel ws n :
  (forall c, c <> ws ->
     peers (outcome_net (keepWebsocketAlive fuel ws n)) !! c = peers n !! c)
  /\ pending (outcome_net (keepWebsocketAlive fuel ws n)) ws = pending n ws
  /\ exists k,
       k <= fuel
       /\ received (outcome_net (keepWebsocketAlive fuel ws n)) ws
          = received n ws ++ replicate k heartbeat.
Proof.
  destruct (keepalive_loop_frame ws fuel n) as (Hp & Hpe & _ & k & Hk & Hr).
  unfold keepWebsocketAlive.
  destruct (keepWebsocketAlive_loop fuel ws n) as [n'|n'];
    cbn [outcome_net] in *.
  - split_and!.
    + intros c Hc. rewrite peers_ws_Close. case_decide; [done|]. by apply Hp.
    + by rewrite pending_ws_Close.
    + exists k. split; [done|]. by rewrite received_ws_Close.
  - split_and!; [done..|]. by exists k.
Qed.

(** X15. Started on a connection that is already closed, or that the
    process does not hold, the keepalive task gives up at its first round:
    it sleeps once, its write fails, it closes and returns, and it has
    written nothing. *)
Theorem keepalive_on_closed_connection fuel ws n :
  is_closed n ws = true ->
  exists n',
    keepWebsocketAlive (S fuel) ws n = Returned n'
    /\ trace n'
       = trace n ++ [EvSleep (60 * Second); EvSendErr ws errClosed; EvClose ws]
    /\ (forall x, received n' x = received n x)
    /\ now n' = (now n + 60 * Second)%Z.
Proof.
  intros Hc.
  assert (Hw : write_error (time_Sleep (60 * Second) n) ws = Some errClosed).
  { unfold write_error, is_closed, peer_write_error in *. simpl.
    destruct (peers n !! ws) as [p|]; simpl in *; [|done]. by rewrite Hc. }
  unfold keepWebsocketAlive. cbn [keepWebsocketAlive_loop].
  rewrite (ws_Send_err _ _ _ _ Hw).
  eexists. split; [done|]. split; [|split].
  - rewrite trace_ws_Close. simpl. by rewrite <- !app_assoc.
  - intros x. by rewrite received_ws_Close.
  - unfold ws_Close. simpl. by destruct (peers n !! ws).
Qed.

Lemma keepalive_on_closed_connection_witness :
  exists n',
    keepWebsocketAlive 3 erin (cut_at 0) = Returned n'
    /\ trace n' = [EvSleep (60 * Second); EvSendErr erin errClosed; EvClose erin].
Proof.
  destruct (keepalive_on_closed_connection 2 erin (cut_at 0) eq_refl)
    as (n' & Hrun & Ht & _).
  by exists n'.
Defined.

(** ** The password from [Register] to [registerServer] *)





(** ** Examples for the further properties *)

(** Settles a goal about every element of a concrete list of connections. *)
Ltac each_member l :=
  let c := fresh "c" in
  let Hc := fresh "Hc" in
  intros c Hc; change (c ∈ l) in Hc;
  repeat (apply elem_of_cons in Hc as [->|Hc]; [reflexivity|]);
  by apply elem_of_nil in Hc.

Lemma execute_folds_requests_witness :
  members (execute doubling
             [ReqRegister alice; ReqRegister bob; ReqUnregister alice]
             (new_world (net_of [])))
  = [bob].
Proof.
  assert (Hwf : wf_world (new_world (net_of []))) by (vm_compute; lia).
  destruct (execute_folds_requests doubling
              [ReqRegister alice; ReqRegister bob; ReqUnregister alice]
              _ Hwf) as (_ & Hm & _).
  rewrite Hm. reflexivity.
Defined.

Lemma register_then_unregister_witness :
  members (execute doubling [ReqRegister bob; ReqUnregister bob] solo_room)
  = [alice]
  /\ members (execute doubling [ReqRegister alice; ReqUnregister alice]
                severed_room)
     = [bob; carol; alice].
Proof.
  assert (Hwf : wf_world solo_room) by (vm_compute; lia).
  assert (Hwf' : wf_world severed_room) by (vm_compute; lia).
  split.
  - apply (register_then_unregister doubling bob solo_room Hwf).
    change (bob ∉ [alice]). intros Hin.
    apply list_elem_of_singleton in Hin. discriminate.
  - destruct (register_then_unregister doubling alice severed_room Hwf')
      as (_ & _ & Hin).
    rewrite Hin; [reflexivity|]. change (alice ∈ [alice; bob; carol]).
    by left.
Defined.

Lemma removeConn_overwrites_argument_witness :
  let h := [[alice; bob; carol; nil_conn]] in
  let s := mkSlice 0 0 3 4 in
  view (removeConn doubling h s alice).1 s = [bob; carol; carol]
  /\ view (removeConn doubling h s alice).1 (removeConn doubling h s alice).2
     = [bob; carol].
Proof.
  intros h s.
  assert (Hwf : wf_slice h s) by (unfold wf_slice; simpl; lia).
  assert (Hin : alice ∈ view h s) by (by left).
  destruct (removeConn_overwrites_argument doubling h s alice _ _ Hwf Hin
              eq_refl) as (v & Hlast & Hold & Hnew & _).
  split; [|exact Hnew].
  vm_compute in Hlast. injection Hlast as <-. exact Hold.
Defined.

Lemma removeConn_allocates_and_frames_witness :
  let h := [[alice; bob; carol; nil_conn]] in
  let s := mkSlice 0 0 3 4 in
  length (removeConn doubling h s dave).1 = 2
  /\ cells (removeConn doubling h s dave).1 1 = [nil_conn; nil_conn].
Proof.
  intros h s.
  assert (Hwf : wf_slice h s) by (unfold wf_slice; simpl; lia).
  destruct (removeConn_allocates_and_frames doubling h s dave _ _ Hwf eq_refl)
    as (Hlen & Hfresh & _).
  split; [exact Hlen|exact Hfresh].
Defined.

Lemma GetPoolAddr_lists_members_witness :
  GetPoolAddr hello_room
  = ["10.0.0.1:4001"; "10.0.0.2:4002"; "10.0.0.3:4003"]%string.
Proof.
  assert (Hwf : wf_world hello_room) by (vm_compute; lia).
  destruct (GetPoolAddr_lists_members doubling hello_room Hwf) as (Heq & _).
  rewrite Heq. reflexivity.
Defined.

Lemma Broadcast_healthy_pool_witness :
  exists w',
    Broadcast doubling "hi" hello_room = (w', None)
    /\ received (net w') carol = ["hi"%string].
Proof.
  assert (Hwf : wf_world hello_room) by (vm_compute; lia).
  assert (Hok : forall c, c ∈ members hello_room ->
                          write_error (net hello_room) c = None)
    by each_member [alice; bob; carol].
  destruct (Broadcast_healthy_pool doubling "hi" hello_room Hwf Hok)
    as (w' & Hrun & _ & _ & _ & Hrecv).
  exists w'. split; [exact Hrun|]. apply (Hrecv carol).
Defined.

Lemma Broadcast_error_iff_witness :
  (Broadcast doubling "hi" hello_room).2 = None
  /\ (Broadcast doubling "hi" severed_room).2 <> None.
Proof.
  assert (Hwf : wf_world hello_room) by (vm_compute; lia).
  assert (Hwf' : wf_world severed_room) by (vm_compute; lia).
  split.
  - apply (Broadcast_error_iff doubling "hi" hello_room Hwf).
    each_member [alice; bob; carol].
  - intros Hnone.
    destruct (Broadcast_error_iff doubling "hi" severed_room Hwf')
      as [[Hall _] _].
    specialize (Hall Hnone bob). discriminate Hall.
    change (bob ∈ [alice; bob; carol]). right. by left.
Defined.

Lemma Broadcast_closes_nothing_witness :
  is_closed (net (Broadcast doubling "hi" severed_room).1) bob = false
  /\ members (Broadcast doubling "hi" severed_room).1 = [alice; carol].
Proof.
  assert (Hwf : wf_world severed_room) by (vm_compute; lia).
  destruct (Broadcast_closes_nothing doubling "hi" severed_room Hwf)
    as (_ & Hc & _).
  split; [|reflexivity]. by rewrite Hc.
Defined.

Lemma readMessage_relays_frames_witness :
  exists w',
    readMessage doubling 2 alice hello_room = Some w'
    /\ members w' = [bob; carol]
    /\ received (net w') bob = ["hello"%string].
Proof.
  assert (Hwf : wf_world hello_room) by (vm_compute; lia).
  assert (Hok : forall c, c ∈ members hello_room ->
                          write_error (net hello_room) c = None)
    by each_member [alice; bob; carol].
  destruct (readMessage_relays_frames doubling alice ["hello"%string] 2
              hello_room Hwf eq_refl eq_refl Hok)
    as (w' & Hrun & Hm & Hrecv & _); [simpl; lia|].
  exists w'. split; [exact Hrun|]. split; [exact Hm|]. apply (Hrecv bob).
Defined.

